(** * Angelscript MCP servers: search-and-enrich pipeline

    A shallow embedding of the two MCP servers of the repository:

    - the standalone server ([mcp-server/src/index.ts]), which queries the
      in-process type database synchronously, and
    - the extension-integrated server (class [AngelscriptMcpServer]), which
      talks to the language server through the shared [LanguageClient] and
      enriches the result list with a window of at most ten concurrent
      detail requests.

    JavaScript values are modelled as far as the two [performApiSearch]
    functions inspect them.  Strings are sequences of 8-bit code units (the
    Latin-1 range of UTF-16).  Asynchronous execution is modelled by an
    explicit sequence of promise callbacks delivered by the event loop. *)

From Stdlib Require Import QArith Qround Ascii String.
From stdpp Require Import base list strings.

Set Warnings "-register-all".
Local Open Scope string_scope.
Local Open Scope list_scope.

(** ** JavaScript values *)

Module Js.

(** An IEEE-754 double: the three special values, or a finite value (every
    finite double is a rational). *)
Inductive JsNumber :=
  | NaN
  | PosInf
  | NegInf
  | Fin (q : Q).

Definition Math_floor (x : JsNumber) : JsNumber :=
  match x with
  | Fin q => Fin (inject_Z (Qfloor q))
  | _ => x
  end.

(** [Math.max] and [Math.min] of two arguments: [NaN] if either is [NaN]. *)
Definition Math_max (a b : JsNumber) : JsNumber :=
  match a, b with
  | NaN, _ | _, NaN => NaN
  | PosInf, _ | _, PosInf => PosInf
  | NegInf, y => y
  | x, NegInf => x
  | Fin p, Fin q => if Qle_bool p q then Fin q else Fin p
  end.

Definition Math_min (a b : JsNumber) : JsNumber :=
  match a, b with
  | NaN, _ | _, NaN => NaN
  | NegInf, _ | _, NegInf => NegInf
  | PosInf, y => y
  | x, PosInf => x
  | Fin p, Fin q => if Qle_bool p q then Fin p else Fin q
  end.

(** The values the pipeline can meet in call arguments and in the [data]
    token of a match. *)
Inductive JsValue :=
  | VUndefined
  | VNull
  | VBool (b : bool)
  | VNumber (n : JsNumber)
  | VString (s : string)
  | VArray (elements : list JsValue)
  | VObject (properties : list (string * JsValue)).

(** ToBoolean. *)
Definition truthy (v : JsValue) : bool :=
  match v with
  | VUndefined | VNull => false
  | VBool b => b
  | VNumber NaN => false
  | VNumber (Fin q) => negb (Qeq_bool q 0)
  | VNumber _ => true
  | VString EmptyString => false
  | VString _ => true
  | VArray _ | VObject _ => true
  end.

(** [v ?? undefined]. *)
Definition nullish_or_undefined (v : JsValue) : JsValue :=
  match v with
  | VNull => VUndefined
  | _ => v
  end.

(** [v !== false]. *)
Definition strict_ne_false (v : JsValue) : bool :=
  match v with
  | VBool false => false
  | _ => true
  end.

(** White space of [String.prototype.trim] among the code units 0..255. *)
Definition is_whitespace (c : ascii) : bool :=
  match c with
  | "009" | "010" | "011" | "012" | "013" | " " | "160" => true
  | _ => false
  end%char.

Fixpoint trimStart (s : string) : string :=
  match s with
  | String c s' => if is_whitespace c then trimStart s' else s
  | EmptyString => EmptyString
  end.

Definition trim (s : string) : string :=
  String.rev (trimStart (String.rev (trimStart s))).

(** ToIntegerOrInfinity, then the clamping of the [end] argument of
    [Array.prototype.slice] against the array length. *)
Definition slice_end (len : nat) (end_ : JsNumber) : nat :=
  match end_ with
  | NaN => 0
  | PosInf => len
  | NegInf => 0
  | Fin q =>
      let k := Z.quot (Qnum q) (Zpos (Qden q)) in
      if (k <? 0)%Z then Z.to_nat (Z.max (Z.of_nat len + k) 0)
      else Z.to_nat (Z.min k (Z.of_nat len))
  end.

(** [l.slice(0, end)]. *)
Definition slice0 {A} (l : list A) (end_ : JsNumber) : list A :=
  take (slice_end (length l) end_) l.

(** Completion of a synchronous call, or settlement of a promise. *)
Inductive Completion (A : Type) :=
  | Normal (a : A)
  | Throw (error : string).
Arguments Normal {A} a.
Arguments Throw {A} error.

End Js.
Import Js.

(** ** Data shared by the two servers *)

Definition TOOL_NAME : string := "angelscript_searchApi".

(** [SearchParams], as an untyped arguments object: a missing property
    reads as [VUndefined]. *)
Record SearchParams := {
  query : JsValue;
  limit : JsValue;
  includeDetails : JsValue
}.

(** One match as the provider returns it. *)
Record RawMatch := {
  raw_label : string;
  raw_type : JsValue;
  raw_data : JsValue
}.

(** [SearchResultItem]; [details = None] is an undefined [details]. *)
Record SearchResultItem := {
  label : string;
  type : JsValue;
  data : JsValue;
  details : option string
}.

Record SearchPayload := {
  payload_query : string;
  total : nat;
  returned : nat;
  truncated : bool;
  items : list SearchResultItem
}.

(** The text [performApiSearch] resolves to: a diagnostic sentence, or
    [JSON.stringify(payload, null, 2)]. *)
Inductive Text :=
  | Plain (s : string)
  | JSON_stringify (payload : SearchPayload).

(** What an invocation does to the outside world, in order. *)
Inductive Effect :=
  | CallHasTypes
  | CallSearch (q : string)
  | CallFetchDetail (token : JsValue)
  | ConsoleError (message : string) (error : string).

(** The limit expression shared by both servers:
    [typeof params.limit === "number"
       ? Math.min(Math.max(Math.floor(params.limit), 1), 1000) : 500]. *)
Definition validate_limit (raw : JsValue) : JsNumber :=
  match raw with
  | VNumber n => Math_min (Math_max (Math_floor n) (Fin 1)) (Fin 1000)
  | _ => Fin 500
  end.

(** [typeof params.query === "string" ? params.query.trim() : (empty)]. *)
Definition validate_query (raw : JsValue) : string :=
  match raw with
  | VString s => trim s
  | _ => EmptyString
  end.

(** [items.map(item => ({label, type: item.type ?? undefined,
    data: item.data ?? undefined}))]. *)
Definition project (m : RawMatch) : SearchResultItem :=
  {| label := raw_label m;
     type := nullish_or_undefined (raw_type m);
     data := nullish_or_undefined (raw_data m);
     details := None |}.

Definition base_payload (q : string) (results : list RawMatch)
    (lim : JsNumber) : SearchPayload :=
  let sliced := slice0 results lim in
  {| payload_query := q;
     total := length results;
     returned := length sliced;
     truncated := bool_decide (length sliced < length results)%nat;
     items := project <$> sliced |}.

Definition with_items (p : SearchPayload) (its : list SearchResultItem)
    : SearchPayload :=
  {| payload_query := payload_query p;
     total := total p;
     returned := returned p;
     truncated := truncated p;
     items := its |}.

Definition set_details (d : option string) (it : SearchResultItem)
    : SearchResultItem :=
  {| label := label it; type := type it; data := data it; details := d |}.

Definition NO_QUERY : string :=
  "No query provided. Please supply a search query.".

Definition dquote : string := String "034"%char EmptyString.

Definition no_results (q : string) : string :=
  "No Angelscript API results for " +:+ dquote +:+ q +:+ dquote +:+ ".".

(** ** Effects: a trace of outside calls and a completion *)

Definition Run (A : Type) : Type := list Effect * Completion A.

Definition ret {A} (a : A) : Run A := ([], Normal a).

Definition bind {A B} (k : A -> Run B) (m : Run A) : Run B :=
  match m with
  | (t, Normal a) => let '(t', r) := k a in (t ++ t', r)
  | (t, Throw e) => (t, Throw e)
  end.

#[global] Instance Run_ret : MRet Run := @ret.
#[global] Instance Run_bind : MBind Run := @bind.

Definition emit (e : Effect) : Run unit := ([e], Normal tt).

(** [try { body } catch (error) { handler }]. *)
Definition try_catch {A} (body : Run A) (handler : string -> Run A) : Run A :=
  match body with
  | (t, Throw e) => let '(t', r) := handler e in (t ++ t', r)
  | completed => completed
  end.

Fixpoint for_each {A B} (f : A -> Run B) (l : list A) : Run (list B) :=
  match l with
  | [] => ret []
  | a :: l' => b ← f a; bs ← for_each f l'; ret (b :: bs)
  end.

Definition trace {A} (r : Run A) : list Effect := fst r.
Definition outcome {A} (r : Run A) : Completion A := snd r.

(** The tool call as the transport hands it over: [arguments] may be
    missing. *)
Record CallToolRequest := {
  name : string;
  arguments : option SearchParams
}.

(** [{ content: [{ type: "text", text }], isError }]; a missing [isError]
    is [false]. *)
Record CallToolResult := {
  text : Text;
  isError : bool
}.

Definition unknown_tool (n : string) : CallToolResult :=
  {| text := Plain ("Unknown tool: " +:+ n); isError := true |}.

Definition fetch_failed (item : SearchResultItem) : string :=
  "Failed to fetch details for " +:+ label item +:+ ":".

(** ** The standalone server ([mcp-server/src/index.ts]) *)

Module Standalone.

(** The language-server modules the standalone server imports:
    [typedb.HasTypesFromUnreal], [api_docs.GetAPISearch] (a null result is
    [None]) and [api_docs.GetAPIDetails]. *)
Record Provider := {
  HasTypesFromUnreal : bool;
  GetAPISearch : string -> Completion (option (list RawMatch));
  GetAPIDetails : JsValue -> Completion string
}.

Definition DATABASE_EMPTY : string :=
  "Angelscript types have not been loaded. The type database is empty. " +:+
  "This typically means the Unreal Engine connection has not been established, " +:+
  "or no type data has been cached. Please ensure the Unreal Editor is running " +:+
  "and connected, or that cached type data is available.".

Definition TOOL_FAILED : string :=
  "The Angelscript API tool failed to run. Please ensure the type database is properly initialized.".

Definition has_types (P : Provider) : Run bool :=
  ([CallHasTypes], Normal (HasTypesFromUnreal P)).

Definition search (P : Provider) (q : string)
    : Run (option (list RawMatch)) :=
  ([CallSearch q], GetAPISearch P q).

Definition get_details (P : Provider) (token : JsValue) : Run string :=
  ([CallFetchDetail token], GetAPIDetails P token).

(** The body of [for (const item of payload.items)]. *)
Definition enrich_item (P : Provider) (item : SearchResultItem)
    : Run SearchResultItem :=
  if truthy (data item) then
    try_catch
      (details ← get_details P (data item);
       ret (match details with
            | EmptyString => item
            | _ => set_details (Some details) item
            end))
      (fun error =>
         emit (ConsoleError (fetch_failed item) error);;
         ret item)
  else ret item.

Definition performApiSearch (P : Provider) (params : option SearchParams)
    : Run Text :=
  match params with
  | None => ([], Throw "TypeError")
  | Some params =>
    match validate_query (query params) with
    | EmptyString => ret (Plain NO_QUERY)
    | q =>
      loaded ← has_types P;
      if negb loaded then ret (Plain DATABASE_EMPTY)
      else
        try_catch
          (let lim := validate_limit (limit params) in
           let include := strict_ne_false (includeDetails params) in
           results ← search P q;
           match results with
           | None | Some [] => ret (Plain (no_results q))
           | Some results =>
             let payload := base_payload q results lim in
             its ← (if include then for_each (enrich_item P) (items payload)
                    else ret (items payload));
             ret (JSON_stringify (with_items payload its))
           end)
          (fun error =>
             emit (ConsoleError "angelscript_searchApi tool failed:" error);;
             ret (Plain TOOL_FAILED))
    end
  end.

(** The [CallToolRequestSchema] handler of [createServer]. *)
Definition callTool (P : Provider) (request : CallToolRequest)
    : Run CallToolResult :=
  if String.eqb (name request) TOOL_NAME then
    result ← performApiSearch P (arguments request);
    ret {| text := result; isError := false |}
  else ret (unknown_tool (name request)).

End Standalone.

(** ** The extension-integrated server (class [AngelscriptMcpServer]) *)

Module Extension.

(** What the shared [LanguageClient] delivers to one invocation: the
    settlement of the [clientReady] promise and of the
    [angelscript/getAPISearch] request (a null result is [None]). *)
Record Environment := {
  clientReady : Completion unit;
  getAPISearch : string -> Completion (option (list RawMatch))
}.

Definition TOOL_FAILED : string :=
  "The Angelscript API tool failed to run. Please ensure the language server is running and try again.".

Definition CONCURRENCY_LIMIT : Z := 10.

(** One element of [allDetails]: [{ index, details }]. *)
Record DetailEntry := {
  index : nat;
  entry_details : option string
}.

(** The variables the closures of the enrichment block share, the
    [angelscript/getAPIDetails] requests in flight ([pending]), the requests
    whose [then]/[catch] callback has run and whose [finally] callback is
    still queued ([settled]), whether [resolveAll] was called, and the
    outside calls made so far. *)
Record Sched := {
  nextIndex : nat;
  activeCount : Z;
  allDetails : list DetailEntry;
  pending : list nat;
  settled : list nat;
  resolved : bool;
  effects : list Effect
}.

Definition initial : Sched :=
  {| nextIndex := 0; activeCount := 0; allDetails := [];
     pending := []; settled := []; resolved := false; effects := [] |}.

(** One iteration of the [while] loop of [startNext]: the request for
    [currentIndex] is sent. *)
Definition dispatch (item : SearchResultItem) (st : Sched) : Sched :=
  let currentIndex := nextIndex st in
  let itemData := data item in
  {| nextIndex := S (nextIndex st);
     activeCount := activeCount st + 1;
     allDetails := allDetails st;
     pending := pending st ++ [currentIndex];
     settled := settled st;
     resolved := resolved st;
     effects := effects st ++ [CallFetchDetail itemData] |}.

Definition can_start (its : list SearchResultItem) (st : Sched) : bool :=
  bool_decide (nextIndex st < length its)%nat
  && bool_decide (activeCount st < CONCURRENCY_LIMIT)%Z.

Fixpoint startNext_loop (fuel : nat) (its : list SearchResultItem)
    (st : Sched) : Sched :=
  match fuel with
  | O => st
  | S fuel' =>
    if can_start its st then
      match its !! nextIndex st with
      | Some item => startNext_loop fuel' its (dispatch item st)
      | None => st
      end
    else st
  end.

(** [startNext()]: each iteration increments [nextIndex], so
    [totalItems - nextIndex] iterations are enough. *)
Definition startNext (its : list SearchResultItem) (st : Sched) : Sched :=
  startNext_loop (length its - nextIndex st) its st.

(** A promise callback the event loop runs for the request of an index. *)
Inductive Callback :=
  | Then (i : nat) (details : string)
  | Catch (i : nat) (error : string)
  | Finally (i : nat).

Definition without (i : nat) (l : list nat) : list nat :=
  filter (λ j, j ≠ i) l.

(** [allDetails.push(entry)] in the [then] or [catch] callback of request
    [i]; the [finally] callback is queued. *)
Definition record_entry (i : nat) (d : option string) (log : list Effect)
    (st : Sched) : Sched :=
  {| nextIndex := nextIndex st;
     activeCount := activeCount st;
     allDetails := allDetails st ++ [{| index := i; entry_details := d |}];
     pending := without i (pending st);
     settled := settled st ++ [i];
     resolved := resolved st;
     effects := effects st ++ log |}.

(** The first statement of the [finally] callback of request [i]:
    [activeCount--]. *)
Definition release (i : nat) (st : Sched) : Sched :=
  {| nextIndex := nextIndex st;
     activeCount := activeCount st - 1;
     allDetails := allDetails st;
     pending := pending st;
     settled := without i (settled st);
     resolved := resolved st;
     effects := effects st |}.

(** [resolveAll()]. *)
Definition resolveAll (st : Sched) : Sched :=
  {| nextIndex := nextIndex st;
     activeCount := activeCount st;
     allDetails := allDetails st;
     pending := pending st;
     settled := settled st;
     resolved := true;
     effects := effects st |}.

(** The [finally] callback of request [i]. *)
Definition finally (its : list SearchResultItem) (i : nat) (st : Sched)
    : Sched :=
  let st1 := release i st in
  if bool_decide (length its ≤ nextIndex st1)%nat
     && bool_decide (activeCount st1 = 0%Z)
  then resolveAll st1
  else startNext its st1.

(** Running one callback; [None] when the event loop cannot run it in this
    state (the request is not in flight, or its [finally] is not queued). *)
Definition callback (its : list SearchResultItem) (st : Sched)
    (cb : Callback) : option Sched :=
  match cb with
  | Then i details =>
      if bool_decide (i ∈ pending st)
      then Some (record_entry i (Some details) [] st)
      else None
  | Catch i error =>
      if bool_decide (i ∈ pending st) then
        item ← its !! i;
        Some (record_entry i None [ConsoleError (fetch_failed item) error] st)
      else None
  | Finally i =>
      if bool_decide (i ∈ settled st)
      then Some (finally its i st)
      else None
  end.

Fixpoint run (its : list SearchResultItem) (st : Sched)
    (schedule : list Callback) : option Sched :=
  match schedule with
  | [] => Some st
  | cb :: schedule' => st' ← callback its st cb; run its st' schedule'
  end.

(** [for (const detail of allDetails)
      payload.items[detail.index].details = detail.details]. *)
Fixpoint assign_details (its : list SearchResultItem)
    (entries : list DetailEntry) : Completion (list SearchResultItem) :=
  match entries with
  | [] => Normal its
  | detail :: entries' =>
      match its !! index detail with
      | Some item =>
          assign_details
            (<[index detail := set_details (entry_details detail) item]> its)
            entries'
      | None => Throw "TypeError"
      end
  end.

(** An invocation that awaits nothing more takes no callback. *)
Definition quiescent {A} (schedule : list Callback) (r : A) : option A :=
  match schedule with
  | [] => Some r
  | _ => None
  end.

(** The enrichment block of [performApiSearch]: the guarded
    [await new Promise(...)] followed by the assignment loop.  The result
    is [None] when [schedule] is not a complete run of the callbacks up to
    the call of [resolveAll]. *)
Definition enrich (its : list SearchResultItem) (schedule : list Callback)
    : option (Run (list SearchResultItem)) :=
  if bool_decide (0 < length its)%nat then
    st ← run its (startNext its initial) schedule;
    if resolved st
    then Some (effects st, assign_details its (allDetails st))
    else None
  else quiescent schedule ([], assign_details its []).

Definition tool_failed (t : list Effect) (error : string) : Run Text :=
  (t ++ [ConsoleError "angelscript_searchApi MCP tool failed:" error],
   Normal (Plain TOOL_FAILED)).

Definition performApiSearch (env : Environment)
    (params : option SearchParams) (schedule : list Callback)
    : option (Run Text) :=
  match params with
  | None => quiescent schedule ([], Throw "TypeError")
  | Some params =>
    match validate_query (query params) with
    | EmptyString => quiescent schedule (ret (Plain NO_QUERY))
    | q =>
      match clientReady env with
      | Throw error => quiescent schedule (tool_failed [] error)
      | Normal _ =>
        let lim := validate_limit (limit params) in
        let include := strict_ne_false (includeDetails params) in
        match getAPISearch env q with
        | Throw error => quiescent schedule (tool_failed [CallSearch q] error)
        | Normal (None | Some []) =>
            quiescent schedule ([CallSearch q], Normal (Plain (no_results q)))
        | Normal (Some results) =>
            let payload := base_payload q results lim in
            if include then
              '(t, res) ← enrich (items payload) schedule;
              match res with
              | Normal its =>
                  Some (CallSearch q :: t,
                        Normal (JSON_stringify (with_items payload its)))
              | Throw error => Some (tool_failed (CallSearch q :: t) error)
              end
            else
              quiescent schedule
                ([CallSearch q], Normal (JSON_stringify payload))
        end
      end
    end
  end.

(** The [CallToolRequestSchema] handler of [createServer]. *)
Definition callTool (env : Environment) (request : CallToolRequest)
    (schedule : list Callback) : option (Run CallToolResult) :=
  if String.eqb (name request) TOOL_NAME then
    r ← performApiSearch env (arguments request) schedule;
    Some (result ← r; ret {| text := result; isError := false |})
  else quiescent schedule (ret (unknown_tool (name request))).

(** A schedule that settles the requests in index order: request [i]
    settles as [settlement i], then its [finally] runs. *)
Definition callbacks_of (settlement : nat -> Completion string) (i : nat)
    : list Callback :=
  match settlement i with
  | Normal details => [Then i details; Finally i]
  | Throw error => [Catch i error; Finally i]
  end.

Definition fifo_schedule (settlement : nat -> Completion string) (n : nat)
    : list Callback :=
  flat_map (callbacks_of settlement) (seq 0 n).

(** The [details] the callback of request [i] records, if [schedule]
    contains one. *)
Definition recorded (cb : Callback) : option DetailEntry :=
  match cb with
  | Then i details => Some {| index := i; entry_details := Some details |}
  | Catch i _ => Some {| index := i; entry_details := None |}
  | Finally _ => None
  end.

End Extension.

(** ** The tool descriptor and the [ListTools] handler *)

(** Property access [o.key] on an object literal; a missing property, or a
    value that is no object, reads as [VUndefined]. *)
Fixpoint assoc (key : string) (props : list (string * JsValue)) : JsValue :=
  match props with
  | [] => VUndefined
  | (k, v) :: rest => if String.eqb k key then v else assoc key rest
  end.

Definition member (key : string) (o : JsValue) : JsValue :=
  match o with
  | VObject props => assoc key props
  | _ => VUndefined
  end.

(** The constant [ANGELSCRIPT_SEARCH_TOOL] (the same literal in both
    servers). *)
Definition ANGELSCRIPT_SEARCH_TOOL : JsValue :=
  VObject
    [("name", VString "angelscript_searchApi");
     ("description",
      VString "Search the Angelscript API database for symbols and documentation. Provide a query string and optionally limit the results or include documentation details.");
     ("inputSchema",
      VObject
        [("type", VString "object");
         ("properties",
          VObject
            [("query",
              VObject
                [("type", VString "string");
                 ("description",
                  VString "Search query text for Angelscript API symbols.")]);
             ("limit",
              VObject
                [("type", VString "number");
                 ("description",
                  VString "Maximum number of results to return (1-1000).");
                 ("default", VNumber (Fin 500));
                 ("minimum", VNumber (Fin 1));
                 ("maximum", VNumber (Fin 1000))]);
             ("includeDetails",
              VObject
                [("type", VString "boolean");
                 ("description",
                  VString "Include documentation details for top matches.");
                 ("default", VBool true)])]);
         ("required", VArray [VString "query"])])].

(** The [ListToolsRequestSchema] handler of [createServer] (both servers):
    [{ tools: [ANGELSCRIPT_SEARCH_TOOL] }]. *)
Definition listTools : JsValue :=
  VObject [("tools", VArray [ANGELSCRIPT_SEARCH_TOOL])].

(** The elements of an array value. *)
Definition elements_of (v : JsValue) : list JsValue :=
  match v with
  | VArray l => l
  | _ => []
  end.

(** ** Starting and stopping the extension-integrated server *)

Module Lifecycle.

Inductive StdioServerTransport := new_StdioServerTransport.

(** The field [transport] of [AngelscriptMcpServer]; [None] is [null]. *)
Record Server := {
  transport : option StdioServerTransport
}.

(** The state the constructor leaves. *)
Definition constructed : Server := {| transport := None |}.

(** What [start] and [stop] do to the outside world. *)
Inductive Action :=
  | Connect
  | Close
  | Log (line : string).

(** [start()], given how [server.connect] settles: the new state, the
    actions taken, and how the call itself settles. *)
Definition start (connect : Completion unit) (s : Server)
    : Server * list Action * Completion unit :=
  let s1 := {| transport := Some new_StdioServerTransport |} in
  match connect with
  | Normal _ =>
      (s1,
       [Connect;
        Log "Angelscript MCP Server started (extension-integrated)";
        Log "Available tools: angelscript_searchApi"],
       Normal tt)
  | Throw error => (s1, [Connect], Throw error)
  end.

(** [stop()], given how [server.close] settles. *)
Definition stop (close : Completion unit) (s : Server)
    : Server * list Action * Completion unit :=
  match transport s with
  | Some _ =>
      match close with
      | Normal _ =>
          ({| transport := None |},
           [Close; Log "Angelscript MCP Server stopped"],
           Normal tt)
      | Throw error => (s, [Close], Throw error)
      end
  | None => (s, [], Normal tt)
  end.

(** A call made by the owner of the server, with the settlement of the
    SDK call it leads to. *)
Inductive Call :=
  | Start (connect : Completion unit)
  | Stop (close : Completion unit).

Definition call (c : Call) (s : Server)
    : Server * list Action * Completion unit :=
  match c with
  | Start connect => start connect s
  | Stop close => stop close s
  end.

(** A sequence of calls, each awaited before the next; the owner goes on
    after a call that failed. *)
Fixpoint calls (cs : list Call) (s : Server) : Server * list Action :=
  match cs with
  | [] => (s, [])
  | c :: cs' =>
      let '(s1, acts, _) := call c s in
      let '(s2, acts') := calls cs' s1 in
      (s2, acts ++ acts')
  end.

Definition STOPPED : string := "Angelscript MCP Server stopped".

Definition is_connect (a : Action) : bool :=
  match a with Connect => true | _ => false end.

Definition is_close (a : Action) : bool :=
  match a with Close => true | _ => false end.

Definition is_stopped (a : Action) : bool :=
  match a with Log line => String.eqb line STOPPED | _ => false end.

Definition count (f : Action → bool) (acts : list Action) : nat :=
  length (filter (λ a, f a = true) acts).

(** A [stop] whose [server.close] is rejected. *)
Definition fails_to_close (c : Call) : bool :=
  match c with
  | Stop (Throw _) => true
  | _ => false
  end.

Definition is_set (s : Server) : nat :=
  match transport s with
  | Some _ => 1
  | None => 0
  end.

End Lifecycle.

(** ** Sample data *)

Module Samples.

Definition token (i : nat) : JsValue :=
  VArray [VString "method"; VNumber (Fin (inject_Z (Z.of_nat i)))].

Definition hit (i : nat) : RawMatch :=
  {| raw_label := "GetActor"; raw_type := VString "method";
     raw_data := token i |}.

(** A match that carries no [data]. *)
Definition bare_hit : RawMatch :=
  {| raw_label := "AActor"; raw_type := VNull; raw_data := VUndefined |}.

Definition matches (n : nat) : list RawMatch := hit <$> seq 0 n.

Definition params (lim include : JsValue) : SearchParams :=
  {| query := VString " GetActor "; limit := lim;
     includeDetails := include |}.

(** The server fails on the request of index 1 and answers the others. *)
Definition settlement (i : nat) : Completion string :=
  if Nat.eqb i 1 then Throw "timeout" else Normal "doc".

Definition details_of_token (d : JsValue) : Completion string :=
  match d with
  | VArray [_; VNumber (Fin q)] =>
      if Qeq_bool q 1 then Throw "timeout" else Normal "doc"
  | _ => Normal EmptyString
  end.

Definition items (n : nat) : list SearchResultItem := project <$> matches n.

Definition provider (loaded : bool) (results : list RawMatch)
    : Standalone.Provider :=
  {| Standalone.HasTypesFromUnreal := loaded;
     Standalone.GetAPISearch := λ _, Normal (Some results);
     Standalone.GetAPIDetails := details_of_token |}.

(** A provider whose search throws. *)
Definition broken_provider : Standalone.Provider :=
  {| Standalone.HasTypesFromUnreal := true;
     Standalone.GetAPISearch := λ _, Throw "database locked";
     Standalone.GetAPIDetails := details_of_token |}.

(** A language server that rejects the search request. *)
Definition broken_environment : Extension.Environment :=
  {| Extension.clientReady := Normal tt;
     Extension.getAPISearch := λ _, Throw "connection closed" |}.

(** A language client that never becomes ready. *)
Definition unready_environment : Extension.Environment :=
  {| Extension.clientReady := Throw "client stopped";
     Extension.getAPISearch := λ _, Normal (Some []) |}.

Definition environment (results : list RawMatch) : Extension.Environment :=
  {| Extension.clientReady := Normal tt;
     Extension.getAPISearch := λ _, Normal (Some results) |}.

(** Two matches whose requests settle in index order, and in the opposite
    order. *)
Definition in_order : list Extension.Callback :=
  [Extension.Then 0 "doc0"; Extension.Finally 0;
   Extension.Then 1 "doc1"; Extension.Finally 1].

Definition reversed : list Extension.Callback :=
  [Extension.Then 1 "doc1"; Extension.Then 0 "doc0";
   Extension.Finally 1; Extension.Finally 0].

End Samples.

(** ** Notions used to state the properties *)

Local Close Scope string_scope.

(** The payload built when the limit is [NaN]. *)
Definition NaN_payload (q : string) (n : nat) : SearchPayload :=
  {| payload_query := q; total := n; returned := 0; truncated := true;
     items := [] |}.

Definition clamp (z : Z) : Z := Z.min (Z.max z 1) 1000.

(** An integer in [[1, 1000]]. *)
Definition in_range (n : JsNumber) : Prop :=
  ∃ z : Z, n = Fin (inject_Z z) ∧ (1 ≤ z ≤ 1000)%Z.

(** A value a tool call can carry as an argument.  Both servers are
    connected to a [StdioServerTransport] and to nothing else, and
    [performApiSearch] is reachable from the [CallTool] handler only, so an
    arguments object is the result of [JSON.parse] on a line of the input.
    JSON has no literal for [NaN]; a number literal beyond the range of a
    double reads as an infinity; every other value of [JsValue] can be
    written down, and an absent property reads as [VUndefined]. *)
Definition deliverable (raw : JsValue) : Prop := raw ≠ VNumber NaN.

(** The tokens of the [fetchDetail] calls of a trace, in order. *)
Definition fetches (t : list Effect) : list JsValue :=
  omap (λ e, match e with CallFetchDetail d => Some d | _ => None end) t.

(** What the loop of the standalone server leaves in an item, and the
    outside calls it makes for it. *)
Definition standalone_enriched (P : Standalone.Provider)
    (it : SearchResultItem) : SearchResultItem :=
  if truthy (data it) then
    match Standalone.GetAPIDetails P (data it) with
    | Normal (String c s) => set_details (Some (String c s)) it
    | _ => it
    end
  else it.

Definition standalone_item_trace (P : Standalone.Provider)
    (it : SearchResultItem) : list Effect :=
  if truthy (data it) then
    CallFetchDetail (data it)
    :: match Standalone.GetAPIDetails P (data it) with
       | Throw error => [ConsoleError (fetch_failed it) error]
       | Normal _ => []
       end
  else [].

(** The invariants of [SearchPayload] for a base result [results] and a
    limit [L]; [set_details None] forgets the enrichment. *)
Record payload_ok (q : string) (results : list RawMatch) (L : nat)
    (p : SearchPayload) : Prop := {
  ok_query : payload_query p = q;
  ok_total : total p = length results;
  ok_returned : returned p = Nat.min (total p) L;
  ok_truncated : truncated p = true ↔ returned p < total p;
  ok_length : length (items p) = returned p;
  ok_items : set_details None <$> items p = project <$> take L results
}.

Module SchedInv.
Import Extension.

(** What every iteration of [startNext] keeps. *)
Record Core (its : list SearchResultItem) (st : Sched) : Prop := {
  core_next : nextIndex st ≤ length its;
  core_active :
    activeCount st = Z.of_nat (length (pending st) + length (settled st));
  core_bound : (activeCount st ≤ CONCURRENCY_LIMIT)%Z;
  core_indices :
    pending st ++ (index <$> allDetails st) ≡ₚ seq 0 (nextIndex st);
  core_settled_nodup : NoDup (settled st);
  core_settled : settled st ⊆ index <$> allDetails st;
  core_fetches : fetches (effects st) = data <$> take (nextIndex st) its
}.

(** What holds between two callbacks. *)
Record Inv (its : list SearchResultItem) (st : Sched) : Prop := {
  inv_core : Core its st;
  inv_full :
    nextIndex st < length its → activeCount st = CONCURRENCY_LIMIT;
  inv_resolved :
    resolved st = true ↔ nextIndex st = length its ∧ activeCount st = 0%Z
}.

(** Callbacks still to run before [resolveAll] is called. *)
Definition remaining (its : list SearchResultItem) (st : Sched) : nat :=
  2 * (length its - nextIndex st) + 2 * length (pending st)
  + length (settled st).

(** The callback agrees with what the server answers to request [i]. *)
Definition agrees (settlement : nat → Completion string) (cb : Callback)
    : Prop :=
  match cb with
  | Then i details => settlement i = Normal details
  | Catch i error => settlement i = Throw error
  | Finally _ => True
  end.


(** The details the assignment loop leaves at position [i]: those of the
    last entry of [entries] that carries index [i], or [d0]. *)
Definition assigned (entries : list DetailEntry) (i : nat)
    (d0 : option string) : option string :=
  foldl (λ acc e, if decide (index e = i) then entry_details e else acc)
        d0 entries.

(** [d] is what a callback of [schedule] records for request [i]: the
    string the request was fulfilled with, or nothing after a rejection. *)
Definition detail_of (schedule : list Callback) (i : nat)
    (d : option string) : Prop :=
  match d with
  | Some s => Then i s ∈ schedule
  | None => ∃ error, Catch i error ∈ schedule
  end.

End SchedInv.

(** The string does not begin with white space. *)
Definition starts_clean (s : string) : Prop :=
  match s with
  | String c _ => is_whitespace c = false
  | EmptyString => True
  end.

(** The string neither begins nor ends with white space. *)
Definition trimmed (s : string) : Prop :=
  starts_clean s ∧ starts_clean (String.rev s).

(** The queries of the [search] calls of a trace, in order. *)
Definition searches (t : list Effect) : list string :=
  omap (λ e, match e with CallSearch q => Some q | _ => None end) t.

(** The failures logged in a trace, in order: message and error. *)
Definition failures (t : list Effect) : list (string * string) :=
  omap (λ e, match e with
             | ConsoleError message error => Some (message, error)
             | _ => None
             end) t.

(** What the [catch] callback of a rejected request logs. *)
Definition logged (its : list SearchResultItem) (cb : Extension.Callback)
    : option (string * string) :=
  match cb with
  | Extension.Catch i error => (λ it, (fetch_failed it, error)) <$> its !! i
  | _ => None
  end.

(** What the standalone loop logs for an item. *)
Definition standalone_logged (P : Standalone.Provider)
    (it : SearchResultItem) : option (string * string) :=
  if truthy (data it) then
    match Standalone.GetAPIDetails P (data it) with
    | Throw error => Some (fetch_failed it, error)
    | Normal _ => None
    end
  else None.

(** * Properties *)

(** ** Limit validation *)

Lemma clamp_range z : (1 ≤ clamp z ≤ 1000)%Z.
Proof. unfold clamp. lia. Qed.

Lemma validate_limit_finite q :
  validate_limit (VNumber (Fin q)) = Fin (inject_Z (clamp (Qfloor q))).
Proof.
  unfold validate_limit, Math_floor, Math_max, Math_min, clamp.
  generalize (Qfloor q). intros f.
  unfold Qle_bool. simpl.
  repeat match goal with
         | |- context [Z.leb ?a ?b] => destruct (Z.leb_spec a b); simpl
         end;
    unfold inject_Z; do 2 f_equal; lia.
Qed.

Lemma slice_end_int (len : nat) (z : Z) :
  (0 ≤ z)%Z → slice_end len (Fin (inject_Z z)) = Nat.min (Z.to_nat z) len.
Proof.
  intros Hz. unfold slice_end. simpl. rewrite Z.quot_1_r.
  destruct (Z.ltb_spec z 0); lia.
Qed.

(** ** The window scheduler *)

Section Scheduler.
Import Extension SchedInv.
Variable its : list SearchResultItem.

Lemma without_notin (i : nat) (l : list nat) : i ∉ l → without i l = l.
Proof.
  unfold without. induction l as [|x l IH]; intros Hi; [done|].
  apply not_elem_of_cons in Hi as [Hne Hi].
  rewrite filter_cons, decide_True by done. f_equal. auto.
Qed.

Lemma without_perm (i : nat) (l : list nat) :
  NoDup l → i ∈ l → l ≡ₚ i :: without i l.
Proof.
  induction 1 as [|x l Hx Hl IH]; intros Hi.
  - by apply elem_of_nil in Hi.
  - unfold without. rewrite filter_cons. destruct (decide (x = i)) as [->|Hne].
    + rewrite decide_False by auto. constructor.
      fold (without i l). by rewrite without_notin.
    + rewrite decide_True by done.
      apply elem_of_cons in Hi as [->|Hi]; [done|].
      fold (without i l). rewrite (IH Hi) at 1. apply Permutation_swap.
Qed.

Lemma without_length (i : nat) (l : list nat) :
  NoDup l → i ∈ l → length l = S (length (without i l)).
Proof. intros Hl Hi. by rewrite (without_perm i l Hl Hi) at 1. Qed.

Lemma without_subseteq (i : nat) (l : list nat) : without i l ⊆ l.
Proof. intros j [_ Hj]%list_elem_of_filter. done. Qed.

Lemma without_nodup (i : nat) (l : list nat) : NoDup l → NoDup (without i l).
Proof. apply NoDup_filter. Qed.

Lemma fetches_app (t1 t2 : list Effect) :
  fetches (t1 ++ t2) = fetches t1 ++ fetches t2.
Proof. apply omap_app. Qed.

Lemma can_start_true (st : Sched) :
  can_start its st = true ↔
  nextIndex st < length its ∧ (activeCount st < CONCURRENCY_LIMIT)%Z.
Proof.
  unfold can_start. rewrite andb_true_iff, !bool_decide_eq_true. done.
Qed.

Lemma can_start_false (st : Sched) :
  can_start its st = false ↔
  length its ≤ nextIndex st ∨ (CONCURRENCY_LIMIT ≤ activeCount st)%Z.
Proof.
  unfold can_start. rewrite andb_false_iff, !bool_decide_eq_false. lia.
Qed.

Lemma initial_core : Core its initial.
Proof.
  split; simpl; rewrite ?take_0; try done; try lia; apply NoDup_nil_2.
Qed.

Lemma dispatch_core (item : SearchResultItem) (st : Sched) :
  Core its st → can_start its st = true →
  its !! nextIndex st = Some item →
  Core its (dispatch item st).
Proof.
  intros [Hn Ha Hb Hi Hd Hs Hf] [Hlt Hact]%can_start_true Hitem.
  split; unfold dispatch;
    cbn [nextIndex activeCount allDetails pending settled resolved effects].
  - lia.
  - rewrite length_app. simpl. lia.
  - unfold CONCURRENCY_LIMIT in *. lia.
  - rewrite seq_S. cbn [Nat.add]. rewrite <- Hi.
    rewrite <- !(assoc_L (++)). f_equiv. apply Permutation_app_comm.
  - done.
  - done.
  - rewrite fetches_app, Hf. simpl.
    by rewrite (take_S_r _ _ _ Hitem), fmap_app.
Qed.

(** The loop of [startNext] leaves on its condition, and sends one request
    per increment of [nextIndex] and of [activeCount]. *)
Lemma startNext_loop_spec (fuel : nat) (st : Sched) :
  Core its st →
  let st' := startNext_loop fuel its st in
  Core its st'
  ∧ allDetails st' = allDetails st
  ∧ settled st' = settled st
  ∧ resolved st' = resolved st
  ∧ nextIndex st ≤ nextIndex st'
  ∧ (activeCount st' - activeCount st
     = Z.of_nat (nextIndex st') - Z.of_nat (nextIndex st))%Z
  ∧ pending st' = pending st ++ seq (nextIndex st) (nextIndex st' - nextIndex st)
  ∧ (∃ more, effects st' = effects st ++ more)
  ∧ (length its - nextIndex st ≤ fuel → can_start its st' = false).
Proof.
  assert (Hstay : ∀ st0 : Sched,
             pending st0
             = pending st0 ++ seq (nextIndex st0) (nextIndex st0 - nextIndex st0)).
  { intros st0. by rewrite Nat.sub_diag, app_nil_r. }
  revert st. induction fuel as [|fuel IH]; intros st Hcore; cbn [startNext_loop].
  - split_and!; try done; try lia.
    + exists []. by rewrite app_nil_r.
    + intros Hle. apply can_start_false. left. lia.
  - destruct (can_start its st) eqn:Hcan.
    + pose proof Hcan as [Hlt Hact]%can_start_true.
      destruct (lookup_lt_is_Some_2 its (nextIndex st) Hlt) as [item Hitem].
      rewrite Hitem.
      destruct (IH (dispatch item st) (dispatch_core item st Hcore Hcan Hitem))
        as (H1 & H2 & H3 & H4 & H5 & H6 & H7 & [more H8] & H9).
      set (st' := startNext_loop fuel its (dispatch item st)) in *.
      cbn [dispatch nextIndex activeCount allDetails pending settled
           resolved effects] in *.
      split_and!; try done; try lia.
      * rewrite H7, <- (assoc_L (++)). f_equal.
        replace (nextIndex st' - nextIndex st)
          with (S (nextIndex st' - S (nextIndex st))) by lia.
        done.
      * eexists. rewrite H8, <- (assoc_L (++)). done.
      * intros Hle. apply H9. lia.
    + split_and!; try done; try lia.
      exists []. by rewrite app_nil_r.
Qed.

Lemma startNext_spec (st : Sched) :
  Core its st →
  let st' := startNext its st in
  Core its st'
  ∧ allDetails st' = allDetails st
  ∧ settled st' = settled st
  ∧ resolved st' = resolved st
  ∧ nextIndex st ≤ nextIndex st'
  ∧ (activeCount st' - activeCount st
     = Z.of_nat (nextIndex st') - Z.of_nat (nextIndex st))%Z
  ∧ pending st' = pending st ++ seq (nextIndex st) (nextIndex st' - nextIndex st)
  ∧ (∃ more, effects st' = effects st ++ more)
  ∧ can_start its st' = false.
Proof.
  intros Hcore. unfold startNext.
  destruct (startNext_loop_spec (length its - nextIndex st) st Hcore)
    as (H1 & H2 & H3 & H4 & H5 & H6 & H7 & H8 & H9).
  split_and!; try done. by apply H9.
Qed.

Lemma core_nodup (st : Sched) :
  Core its st → NoDup (pending st ++ (index <$> allDetails st)).
Proof. intros [_ _ _ Hi _ _ _]. rewrite Hi. apply NoDup_seq. Qed.

Lemma record_entry_core (i : nat) (d : option string) (log : list Effect)
    (st : Sched) :
  Core its st → i ∈ pending st → fetches log = [] →
  Core its (record_entry i d log st).
Proof.
  intros Hcore Hin Hlog. pose proof (core_nodup st Hcore) as Hnd.
  destruct Hcore as [Hn Ha Hb Hi Hd Hs Hf].
  apply NoDup_app in Hnd as (Hndp & Hdisj & _).
  split; unfold record_entry;
    cbn [nextIndex activeCount allDetails pending settled resolved effects].
  - done.
  - rewrite length_app. simpl.
    pose proof (without_length i (pending st) Hndp Hin). lia.
  - done.
  - rewrite fmap_app. simpl. rewrite <- Hi.
    rewrite (without_perm i (pending st) Hndp Hin) at 2.
    rewrite (assoc_L (++)), <- Permutation_cons_append. done.
  - apply NoDup_app. split_and!; [done| |apply NoDup_singleton].
    intros j Hj ->%list_elem_of_singleton. apply (Hdisj i Hin). by apply Hs.
  - rewrite fmap_app. simpl. intros j [Hj|Hj]%elem_of_app; apply elem_of_app.
    + left. by apply Hs.
    + by right.
  - by rewrite fetches_app, Hlog, app_nil_r.
Qed.

Lemma initial_inv : 0 < length its → Inv its (startNext its initial).
Proof.
  intros Hpos.
  destruct (startNext_spec initial initial_core)
    as (H1 & H2 & H3 & H4 & H5 & H6 & H7 & H8 & H9).
  cbn [initial nextIndex activeCount allDetails pending settled resolved]
    in *.
  apply can_start_false in H9. pose proof (core_bound _ _ H1) as Hb.
  pose proof (core_next _ _ H1) as Hn.
  split; [done| |].
  - intros Hlt. destruct H9; lia.
  - rewrite H4. split; [done|]. intros [Hnext Hact]. lia.
Qed.

Lemma release_core (i : nat) (st : Sched) :
  Core its st → i ∈ settled st → Core its (release i st).
Proof.
  intros [Hn Ha Hb Hi Hd Hs Hf] Hin.
  pose proof (without_length i (settled st) Hd Hin) as Hlen.
  split; unfold release;
    cbn [nextIndex activeCount allDetails pending settled resolved effects];
    try done.
  - lia.
  - lia.
  - by apply without_nodup.
  - intros j Hj. apply Hs. by apply (without_subseteq i).
Qed.

Lemma finally_spec (i : nat) (st : Sched) :
  Inv its st → i ∈ settled st →
  let st' := finally its i st in
  Inv its st'
  ∧ allDetails st' = allDetails st
  ∧ (∃ more, effects st' = effects st ++ more)
  ∧ S (remaining its st') = remaining its st.
Proof.
  intros [Hcore Hfull Hres] Hin.
  pose proof Hcore as [Hn Ha Hb Hi Hd Hs Hf].
  pose proof (without_length i (settled st) Hd Hin) as Hlen.
  pose proof (release_core i st Hcore Hin) as Hcore1.
  unfold finally. set (st1 := release i st) in *.
  assert (Hold : resolved st = false).
  { apply not_true_is_false. intros Hr. apply Hres in Hr as [_ Hr]. lia. }
  assert (E1 : nextIndex st1 = nextIndex st) by done.
  assert (E2 : activeCount st1 = (activeCount st - 1)%Z) by done.
  assert (E3 : resolved st1 = resolved st) by done.
  assert (E4 : allDetails st1 = allDetails st) by done.
  assert (E5 : effects st1 = effects st) by done.
  assert (E6 : pending st1 = pending st) by done.
  assert (E7 : settled st1 = without i (settled st)) by done.
  destruct (bool_decide (length its ≤ nextIndex st1)
            && bool_decide (activeCount st1 = 0%Z)) eqn:Hcond.
  - apply andb_true_iff in Hcond
      as [Hc1%bool_decide_eq_true Hc2%bool_decide_eq_true].
    destruct Hcore1 as [Hn1 Ha1 Hb1 Hi1 Hd1 Hs1 Hf1].
    cbv zeta. split_and!.
    + split; [split; done | |]; unfold resolveAll;
        cbn [nextIndex activeCount allDetails pending settled resolved effects].
      * lia.
      * split; [|done]. intros _. lia.
    + done.
    + exists []. by rewrite app_nil_r.
    + unfold remaining, resolveAll.
      cbn [nextIndex activeCount allDetails pending settled resolved effects].
      lia.
  - apply andb_false_iff in Hcond.
    rewrite !bool_decide_eq_false in Hcond.
    destruct (startNext_spec st1 Hcore1)
      as (H1 & H2 & H3 & H4 & H5 & H6 & H7 & H8 & H9).
    apply can_start_false in H9. pose proof (core_bound _ _ H1) as Hb'.
    pose proof (core_next _ _ H1) as Hn'.
    cbv zeta. clearbody st1. split_and!.
    + split; [done| |].
      * intros Hlt. destruct H9; lia.
      * rewrite H4, E3, Hold. split; [done|]. intros [Hnext Hact].
        destruct Hcond; lia.
    + congruence.
    + by rewrite <- E5.
    + unfold remaining. rewrite H7, H3, length_app, length_seq, E6, E7. lia.
Qed.

Lemma finally_inv (i : nat) (st : Sched) :
  Inv its st → i ∈ settled st → Inv its (finally its i st).
Proof. intros Hinv Hin. by destruct (finally_spec i st Hinv Hin). Qed.

Lemma callback_inv (st st' : Sched) (cb : Callback) :
  Inv its st → callback its st cb = Some st' → Inv its st'.
Proof.
  intros Hinv Hcb. destruct cb as [i details|i error|i]; simpl in Hcb.
  - case_bool_decide; [|done]. simplify_eq.
    destruct Hinv as [Hcore Hfull Hres].
    split; [by apply record_entry_core|done..].
  - case_bool_decide; [|done].
    destruct (its !! i) as [item|]; simplify_eq/=.
    destruct Hinv as [Hcore Hfull Hres].
    split; [by apply record_entry_core|done..].
  - case_bool_decide; [|done]. simplify_eq. by apply finally_inv.
Qed.

Lemma run_inv (schedule : list Callback) (st st' : Sched) :
  Inv its st → run its st schedule = Some st' → Inv its st'.
Proof.
  revert st. induction schedule as [|cb schedule IH]; intros st Hinv Hrun;
    simpl in Hrun.
  - by simplify_eq.
  - destruct (callback its st cb) as [st1|] eqn:Hcb; [|done]. simpl in Hrun.
    eauto using callback_inv.
Qed.

Lemma callback_allDetails (st st' : Sched) (cb : Callback) :
  Inv its st → callback its st cb = Some st' →
  allDetails st' = allDetails st ++ option_list (recorded cb).
Proof.
  intros Hinv Hcb. destruct cb as [i details|i error|i]; simpl in Hcb.
  - case_bool_decide; [|done]. by simplify_eq.
  - case_bool_decide; [|done].
    destruct (its !! i) as [item|]; by simplify_eq/=.
  - case_bool_decide as Hin; [|done]. simplify_eq. simpl.
    rewrite app_nil_r.
    by destruct (finally_spec i st Hinv Hin) as (_ & ? & _).
Qed.

Lemma callback_spec (st st' : Sched) (cb : Callback) :
  Inv its st → callback its st cb = Some st' →
  (∃ more, effects st' = effects st ++ more)
  ∧ S (remaining its st') = remaining its st
  ∧ (∀ i error, cb = Catch i error →
       ∃ item, its !! i = Some item
               ∧ ConsoleError (fetch_failed item) error ∈ effects st').
Proof.
  intros Hinv Hcb.
  pose proof (core_nodup st (inv_core _ _ Hinv)) as (Hnd & _ & _)%NoDup_app.
  destruct cb as [i details|i error|i]; simpl in Hcb.
  - case_bool_decide as Hin; [|done]. simplify_eq. split_and!; [by eexists | |done].
    unfold remaining, record_entry; cbn [nextIndex pending settled].
    rewrite length_app. simpl.
    pose proof (without_length i (pending st) Hnd Hin). lia.
  - case_bool_decide as Hin; [|done].
    destruct (its !! i) as [item|] eqn:Hitem; simplify_eq/=.
    split_and!; [by eexists | |].
    + unfold remaining, record_entry; cbn [nextIndex pending settled].
      rewrite length_app. simpl.
      pose proof (without_length i (pending st) Hnd Hin). lia.
    + intros ? ? [= <- <-]. exists item. split; [done|].
      apply elem_of_app. right. apply list_elem_of_singleton. done.
  - case_bool_decide as Hin; [|done]. simplify_eq.
    destruct (finally_spec i st Hinv Hin) as (_ & _ & ? & ?).
    split_and!; done.
Qed.

Lemma run_spec (schedule : list Callback) (st st' : Sched) :
  Inv its st → run its st schedule = Some st' →
  Inv its st'
  ∧ allDetails st' = allDetails st ++ omap recorded schedule
  ∧ (∃ more, effects st' = effects st ++ more)
  ∧ remaining its st' + length schedule = remaining its st
  ∧ (∀ i error, Catch i error ∈ schedule →
       ∃ item, its !! i = Some item
               ∧ ConsoleError (fetch_failed item) error ∈ effects st').
Proof.
  revert st. induction schedule as [|cb schedule IH]; intros st Hinv Hrun;
    simpl in Hrun.
  - simplify_eq. split_and!; [done| | |cbn [length]; lia|].
    + by rewrite app_nil_r.
    + exists []. by rewrite app_nil_r.
    + intros i error Hin. by apply elem_of_nil in Hin.
  - destruct (callback its st cb) as [st1|] eqn:Hcb; [|done]. simpl in Hrun.
    pose proof (callback_inv st st1 cb Hinv Hcb) as Hinv1.
    pose proof (callback_allDetails st st1 cb Hinv Hcb) as Hall.
    destruct (callback_spec st st1 cb Hinv Hcb) as ([m1 He1] & Hrem & Hlog).
    destruct (IH st1 Hinv1 Hrun) as (Hinv' & Hall' & [m2 He2] & Hrem' & Hlog').
    split_and!.
    + done.
    + rewrite Hall', Hall, <- (assoc_L (++)). f_equal.
      simpl. by destruct (recorded cb).
    + exists (m1 ++ m2). by rewrite He2, He1, (assoc_L (++)).
    + cbn [length]. lia.
    + intros i error [Heq|Hin]%elem_of_cons; [|by apply Hlog'].
      symmetry in Heq.
      destruct (Hlog i error Heq) as (item & Hitem & Hel).
      exists item. split; [done|]. rewrite He2. apply elem_of_app. by left.
Qed.

(** Until [resolveAll] is called some callback can run, whatever the
    server answers. *)
Lemma progress (settlement : nat → Completion string) (st : Sched) :
  Inv its st → resolved st = false →
  ∃ cb st', callback its st cb = Some st' ∧ agrees settlement cb.
Proof.
  intros Hinv Hres. pose proof Hinv as [Hcore Hfull Hr].
  pose proof Hcore as [Hn Ha Hb Hi Hd Hs Hf].
  destruct (pending st) as [|i p] eqn:Hp.
  - destruct (settled st) as [|i s] eqn:Hse.
    + exfalso. simpl in Ha.
      assert (resolved st = true); [|congruence].
      apply Hr. split; [|done].
      destruct (decide (nextIndex st < length its)) as [Hlt|]; [|lia].
      apply Hfull in Hlt. unfold CONCURRENCY_LIMIT in Hlt. lia.
    + exists (Finally i), (finally its i st). split; [|done].
      simpl. rewrite Hse, bool_decide_eq_true_2; [done|by left].
  - assert (Hin : i ∈ pending st) by (rewrite Hp; by left).
    assert (Hlt : i < length its).
    { assert (Hseq : i ∈ seq 0 (nextIndex st)).
      { rewrite <- Hi. by left. }
      apply elem_of_seq in Hseq. lia. }
    destruct (lookup_lt_is_Some_2 its i Hlt) as [item Hitem].
    destruct (settlement i) as [details|error] eqn:Hset.
    + exists (Then i details), (record_entry i (Some details) [] st).
      split; [|done]. simpl. by rewrite bool_decide_eq_true_2.
    + exists (Catch i error),
        (record_entry i None [ConsoleError (fetch_failed item) error] st).
      split; [|done].
      simpl. rewrite bool_decide_eq_true_2 by done.
      by rewrite Hitem.
Qed.

(** Every state the callbacks can reach is finitely many callbacks away
    from the call of [resolveAll]. *)
Lemma completes (settlement : nat → Completion string) (n : nat)
    (st : Sched) :
  Inv its st → remaining its st ≤ n →
  ∃ schedule st', run its st schedule = Some st'
                  ∧ resolved st' = true
                  ∧ Forall (agrees settlement) schedule.
Proof.
  revert st. induction n as [|n IH]; intros st Hinv Hrem;
    (destruct (resolved st) eqn:Hres; [by exists [], st|]);
    destruct (progress settlement st Hinv Hres) as (cb & st1 & Hcb & Hag);
    destruct (callback_spec st st1 cb Hinv Hcb) as (_ & Hdec & _).
  - lia.
  - destruct (IH st1) as (schedule & st' & Hrun & Hres' & Hall).
    { by eapply callback_inv. }
    { lia. }
    exists (cb :: schedule), st'. split_and!; [|done|by constructor].
    simpl. by rewrite Hcb.
Qed.
End Scheduler.

(** ** The assignment loop *)

Section Assignment.
Import Extension SchedInv.

Lemma set_details_twice (d d' : option string) (it : SearchResultItem) :
  set_details d (set_details d' it) = set_details d it.
Proof. done. Qed.

Lemma set_details_same (it : SearchResultItem) :
  set_details (details it) it = it.
Proof. by destruct it. Qed.

Lemma assigned_cons (e : DetailEntry) (entries : list DetailEntry) (i : nat)
    (d0 : option string) :
  assigned (e :: entries) i d0
  = assigned entries i (if decide (index e = i) then entry_details e else d0).
Proof. done. Qed.

Lemma assigned_notin (entries : list DetailEntry) (i : nat)
    (d0 : option string) :
  i ∉ index <$> entries → assigned entries i d0 = d0.
Proof.
  revert d0. induction entries as [|e entries IH]; intros d0 Hi; [done|].
  rewrite fmap_cons in Hi. apply not_elem_of_cons in Hi as [Hne Hi].
  rewrite assigned_cons, decide_False by done. auto.
Qed.

Lemma assigned_unique (entries : list DetailEntry) (e : DetailEntry)
    (d0 : option string) :
  NoDup (index <$> entries) → e ∈ entries →
  assigned entries (index e) d0 = entry_details e.
Proof.
  revert d0. induction entries as [|e' entries IH]; intros d0 Hnd He.
  - by apply elem_of_nil in He.
  - rewrite fmap_cons in Hnd. apply NoDup_cons in Hnd as [Hnotin Hnd].
    rewrite assigned_cons. apply elem_of_cons in He as [->|He].
    + rewrite decide_True by done. by apply assigned_notin.
    + rewrite decide_False; [by apply IH|].
      intros Heq. apply Hnotin. rewrite Heq.
      by apply list_elem_of_fmap_2.
Qed.

Lemma assign_details_spec (entries : list DetailEntry)
    (its : list SearchResultItem) :
  (∀ e, e ∈ entries → index e < length its) →
  ∃ its', assign_details its entries = Normal its'
          ∧ length its' = length its
          ∧ ∀ i it, its !! i = Some it →
              its' !! i
              = Some (set_details (assigned entries i (details it)) it).
Proof.
  revert its. induction entries as [|e entries IH]; intros its Hlt.
  - exists its. split_and!; [done..|].
    intros i it Hit. simpl. by rewrite set_details_same.
  - destruct (lookup_lt_is_Some_2 its (index e)) as [item Hitem].
    { apply Hlt. by left. }
    cbn [assign_details]. rewrite Hitem.
    set (its1 := <[index e := set_details (entry_details e) item]> its).
    destruct (IH its1) as (its' & Hassign & Hlen & Hlookup).
    { intros e' He'. subst its1. rewrite length_insert. apply Hlt. by right. }
    exists its'. split_and!; [done| |].
    + subst its1. by rewrite Hlen, length_insert.
    + intros i it Hit. rewrite assigned_cons. destruct (decide (index e = i)) as [<-|Hne].
      * assert (item = it) as -> by congruence.
        rewrite (Hlookup (index e) (set_details (entry_details e) it)).
        -- done.
        -- subst its1. apply list_lookup_insert_eq.
           by apply lookup_lt_Some in Hit.
      * apply Hlookup. subst its1. by rewrite list_lookup_insert_ne.
Qed.

End Assignment.

(** ** The enrichment block as a whole *)

Section Enrichment.
Import Extension SchedInv.

Lemma recorded_detail_of (schedule : list Callback) (e : DetailEntry) :
  e ∈ omap recorded schedule ↔
  detail_of schedule (index e) (entry_details e).
Proof.
  rewrite list_elem_of_omap. destruct e as [i [s|]]; simpl; split.
  - intros ([j s'|j err|j] & Hin & Hrec); by simplify_eq/=.
  - intros Hin. by exists (Then i s).
  - intros ([j s'|j err|j] & Hin & Hrec); simplify_eq/=. by exists err.
  - intros [err Hin]. by exists (Catch i err).
Qed.

(** A complete run of the callbacks: every item was requested once, in
    order; the block does not throw; the item at each index carries what
    the callback of its own request recorded. *)
Lemma enrich_spec (its : list SearchResultItem) (schedule : list Callback)
    (t : list Effect) (res : Completion (list SearchResultItem)) :
  enrich its schedule = Some (t, res) →
  ∃ its', res = Normal its'
    ∧ length its' = length its
    ∧ fetches t = data <$> its
    ∧ (∀ i it, its !! i = Some it →
         ∃ d, its' !! i = Some (set_details d it) ∧ detail_of schedule i d)
    ∧ (∀ i d, detail_of schedule i d →
         ∃ it, its !! i = Some it ∧ its' !! i = Some (set_details d it))
    ∧ (∀ i error, Catch i error ∈ schedule →
         ∃ it, its !! i = Some it
               ∧ ConsoleError (fetch_failed it) error ∈ t).
Proof.
  unfold enrich. case_bool_decide as Hpos.
  - destruct (run its (startNext its initial) schedule) as [st|] eqn:Hrun;
      [|done].
    simpl. destruct (resolved st) eqn:Hres; [|done]. intros [= <- <-].
    destruct (run_spec its schedule _ st (initial_inv its Hpos) Hrun)
      as (Hinv & Hall & _ & _ & Hlog).
    destruct (startNext_spec its initial (initial_core its))
      as (_ & Hall0 & _).
    rewrite Hall0 in Hall. simpl in Hall.
    destruct Hinv as [Hcore _ Hr]. apply Hr in Hres as [Hnext Hact].
    destruct Hcore as [_ Ha _ Hi _ _ Hf].
    assert (Hp : pending st = []) by (apply length_zero_iff_nil; lia).
    rewrite Hp, Hnext, Hall in Hi. simpl in Hi.
    rewrite Hnext, firstn_all in Hf.
    set (entries := omap recorded schedule) in *.
    assert (Hnd : NoDup (index <$> entries)).
    { rewrite Hi. apply NoDup_seq. }
    assert (Hlt : ∀ e, e ∈ entries → index e < length its).
    { intros e He. apply (list_elem_of_fmap_2 index) in He.
      rewrite Hi in He. apply elem_of_seq in He. lia. }
    destruct (assign_details_spec entries its Hlt)
      as (its' & Hassign & Hlen & Hlookup).
    rewrite Hall. exists its'. split_and!; try done.
    + intros i it Hit.
      assert (Hin : i ∈ index <$> entries).
      { rewrite Hi. apply elem_of_seq. apply lookup_lt_Some in Hit. lia. }
      apply list_elem_of_fmap in Hin as (e & -> & He).
      exists (entry_details e). split.
      * by rewrite (Hlookup _ _ Hit), assigned_unique.
      * by apply recorded_detail_of.
    + intros i d Hd.
      assert (He : {| index := i; entry_details := d |} ∈ entries).
      { by apply recorded_detail_of. }
      destruct (lookup_lt_is_Some_2 its i (Hlt _ He)) as [it Hit].
      exists it. split; [done|].
      rewrite (Hlookup _ _ Hit).
      pose proof (assigned_unique entries _ (details it) Hnd He) as Hu.
      simpl in Hu. by rewrite Hu.
  - destruct schedule; [|done]. intros [= <- <-].
    assert (its = []) as -> by (apply length_zero_iff_nil; lia).
    exists []. split_and!; try done.
    + intros i [s|] Hd; simpl in Hd.
      * by apply elem_of_nil in Hd.
      * destruct Hd as [err Hd]. by apply elem_of_nil in Hd.
    + intros i error Hin. by apply elem_of_nil in Hin.
Qed.


(** The enrichment block returns: for any answers of the server there is a
    complete run of the callbacks. *)
Lemma enrich_total (its : list SearchResultItem)
    (settlement : nat → Completion string) :
  ∃ schedule t its',
    enrich its schedule = Some (t, Normal its')
    ∧ Forall (agrees settlement) schedule.
Proof.
  destruct (decide (0 < length its)) as [Hpos|Hzero].
  - destruct (completes its settlement _ _ (initial_inv its Hpos) (le_n _))
      as (schedule & st & Hrun & Hres & Hall).
    destruct (enrich its schedule) as [[t res]|] eqn:Hen.
    + destruct (enrich_spec its schedule t res Hen) as (its' & -> & _).
      by exists schedule, t, its'.
    + exfalso. unfold enrich in Hen.
      rewrite bool_decide_eq_true_2, Hrun in Hen by done. simpl in Hen.
      by rewrite Hres in Hen.
  - exists [], [], its. split; [|done].
    unfold enrich. rewrite bool_decide_eq_false_2 by done. done.
Qed.

End Enrichment.

(** ** The standalone pipeline *)

Section StandalonePipeline.
Import Standalone.
Variable P : Provider.

Lemma enrich_item_eq (it : SearchResultItem) :
  enrich_item P it
  = (standalone_item_trace P it, Normal (standalone_enriched P it)).
Proof.
  unfold enrich_item, standalone_item_trace, standalone_enriched.
  destruct (truthy (data it)); [|done].
  unfold get_details. simpl.
  destruct (GetAPIDetails P (data it)) as [[|c s]|error]; done.
Qed.

Lemma for_each_enrich_eq (its : list SearchResultItem) :
  for_each (enrich_item P) its
  = (its ≫= standalone_item_trace P, Normal (standalone_enriched P <$> its)).
Proof.
  induction its as [|it its IH]; [done|].
  cbn [for_each]. rewrite enrich_item_eq, IH. simpl.
  by rewrite app_nil_r.
Qed.


(** The successful path of [performApiSearch], in closed form. *)
Lemma standalone_found (params : SearchParams) (results : list RawMatch) :
  let q := validate_query (query params) in
  q ≠ EmptyString →
  HasTypesFromUnreal P = true →
  GetAPISearch P q = Normal (Some results) →
  results ≠ [] →
  let payload := base_payload q results (validate_limit (limit params)) in
  performApiSearch P (Some params)
  = if strict_ne_false (includeDetails params) then
      (CallHasTypes :: CallSearch q
         :: (items payload ≫= standalone_item_trace P),
       Normal (JSON_stringify
         (with_items payload (standalone_enriched P <$> items payload))))
    else
      ([CallHasTypes; CallSearch q],
       Normal (JSON_stringify (with_items payload (items payload)))).
Proof.
  intros q Hq Hloaded Hsearch Hres payload. unfold performApiSearch.
  fold q. destruct q as [|c q]; [done|]. destruct results as [|m results]; [done|].
  unfold has_types, search. rewrite Hloaded, Hsearch.
  fold payload. cbn -[for_each payload].
  destruct (strict_ne_false (includeDetails params)).
  - rewrite for_each_enrich_eq. cbn -[payload]. by rewrite app_nil_r.
  - done.
Qed.

End StandalonePipeline.

(** ** The base payload *)

Lemma slice0_int {A} (l : list A) (z : Z) :
  (0 ≤ z)%Z → slice0 l (Fin (inject_Z z)) = take (Z.to_nat z) l.
Proof.
  intros Hz. unfold slice0. rewrite slice_end_int by done.
  destruct (decide (Z.to_nat z ≤ length l)) as [Hle|Hgt].
  - by rewrite Nat.min_l.
  - rewrite Nat.min_r by lia. by rewrite !take_ge by lia.
Qed.

Lemma slice0_NaN {A} (l : list A) : slice0 l NaN = [].
Proof. done. Qed.

Lemma base_payload_ok (q : string) (results : list RawMatch) (z : Z) :
  (0 ≤ z)%Z →
  payload_ok q results (Z.to_nat z)
    (base_payload q results (Fin (inject_Z z))).
Proof.
  intros Hz. unfold base_payload. rewrite slice0_int by done.
  split; cbn [payload_query total returned truncated items].
  - done.
  - done.
  - rewrite length_take. lia.
  - rewrite bool_decide_eq_true. done.
  - by rewrite length_fmap.
  - rewrite <- list_fmap_compose. by apply list_fmap_ext.
Qed.

Lemma base_payload_NaN (q : string) (results : list RawMatch) :
  results ≠ [] → base_payload q results NaN = NaN_payload q (length results).
Proof.
  intros Hres. unfold base_payload, NaN_payload. rewrite slice0_NaN.
  cbn [length fmap list_fmap]. rewrite bool_decide_eq_true_2; [done|].
  destruct results; [done|]. simpl. lia.
Qed.

(** Enrichment changes nothing but [details]. *)
Lemma with_items_ok (q : string) (results : list RawMatch) (L : nat)
    (p : SearchPayload) (its : list SearchResultItem) :
  payload_ok q results L p →
  set_details None <$> its = set_details None <$> items p →
  payload_ok q results L (with_items p its).
Proof.
  intros [H1 H2 H3 H4 H5 H6] Hits.
  split; cbn [with_items payload_query total returned truncated items];
    try done.
  - rewrite <- H5. apply (f_equal length) in Hits.
    by rewrite !length_fmap in Hits.
  - by rewrite Hits.
Qed.

Lemma standalone_enriched_base (P : Standalone.Provider)
    (its : list SearchResultItem) :
  set_details None <$> (standalone_enriched P <$> its)
  = set_details None <$> its.
Proof.
  rewrite <- list_fmap_compose. apply list_fmap_ext. intros i it _. simpl.
  unfold standalone_enriched.
  destruct (truthy (data it)); [|done].
  by destruct (Standalone.GetAPIDetails P (data it)) as [[|c s]|error].
Qed.

(** ** The extension pipeline *)

Section ExtensionPipeline.
Import Extension SchedInv.
Variable env : Environment.

Lemma quiescent_Some {A} (schedule : list Callback) (r r' : A) :
  quiescent schedule r = Some r' → schedule = [] ∧ r' = r.
Proof. destruct schedule; [|done]. by intros [= ->]. Qed.

(** The successful path of [performApiSearch]. *)
Lemma extension_found (params : SearchParams) (results : list RawMatch)
    (schedule : list Callback) (r : Run Text) :
  let q := validate_query (query params) in
  q ≠ EmptyString →
  clientReady env = Normal tt →
  getAPISearch env q = Normal (Some results) →
  results ≠ [] →
  performApiSearch env (Some params) schedule = Some r →
  let payload := base_payload q results (validate_limit (limit params)) in
  ∃ t its',
    r = (CallSearch q :: t,
         Normal (JSON_stringify (with_items payload its')))
    ∧ if strict_ne_false (includeDetails params)
      then enrich (items payload) schedule = Some (t, Normal its')
      else schedule = [] ∧ t = [] ∧ its' = items payload.
Proof.
  intros q Hq Hready Hsearch Hres Hrun payload.
  unfold performApiSearch in Hrun. fold q in Hrun.
  destruct q as [|c q]; [done|]. destruct results as [|m results]; [done|].
  rewrite Hready, Hsearch in Hrun. fold payload in Hrun.
  destruct (strict_ne_false (includeDetails params)).
  - destruct (enrich (items payload) schedule) as [[t res]|] eqn:Hen;
      [|done].
    destruct (enrich_spec _ _ _ _ Hen) as (its' & -> & _).
    simpl in Hrun. simplify_eq. by exists t, its'.
  - apply quiescent_Some in Hrun as [-> ->].
    exists [], (items payload). split; [|done].
    by destruct payload.
Qed.

(** With the callbacks of a complete run the invocation returns. *)
Lemma extension_returns (params : SearchParams) (results : list RawMatch)
    (schedule : list Callback) (t : list Effect)
    (its' : list SearchResultItem) :
  let q := validate_query (query params) in
  q ≠ EmptyString →
  clientReady env = Normal tt →
  getAPISearch env q = Normal (Some results) →
  results ≠ [] →
  strict_ne_false (includeDetails params) = true →
  let payload := base_payload q results (validate_limit (limit params)) in
  enrich (items payload) schedule = Some (t, Normal its') →
  performApiSearch env (Some params) schedule
  = Some (CallSearch q :: t,
          Normal (JSON_stringify (with_items payload its'))).
Proof.
  intros q Hq Hready Hsearch Hres Hinc payload Hen.
  unfold performApiSearch. fold q.
  destruct q as [|c q]; [done|]. destruct results as [|m results]; [done|].
  rewrite Hready, Hsearch, Hinc. fold payload. by rewrite Hen.
Qed.

Lemma enrich_base (its its' : list SearchResultItem)
    (schedule : list Callback) (t : list Effect) :
  enrich its schedule = Some (t, Normal its') →
  set_details None <$> its' = set_details None <$> its.
Proof.
  intros Hen.
  destruct (enrich_spec _ _ _ _ Hen) as (its2 & [= <-] & Hlen & _ & Hd & _).
  apply list_eq. intros i. rewrite !list_lookup_fmap.
  destruct (its !! i) as [it|] eqn:Hit.
  - destruct (Hd i it Hit) as (d & -> & _). done.
  - apply lookup_ge_None in Hit.
    rewrite (proj2 (lookup_ge_None its' i)) by lia. done.
Qed.

End ExtensionPipeline.

(** * The specification, statement by statement *)

Section Specification.
Import Extension SchedInv.

Lemma in_range_NaN : ¬ in_range NaN.
Proof. by intros (z & ? & _). Qed.

Lemma validate_limit_in_range (n : JsNumber) :
  n ≠ NaN → in_range (validate_limit (VNumber n)).
Proof.
  intros Hn. destruct n as [| | |q]; [done|..].
  - by exists 1000%Z.
  - by exists 1%Z.
  - rewrite validate_limit_finite. eexists. split; [done|apply clamp_range].
Qed.

(** C6: limit validation is a total function of the raw argument, built
    from operations that do not throw, and for every raw limit a tool call
    can deliver its value is an integer in [[1, 1000]].  A non-number (an
    absent limit included) gives exactly 500; a finite number is floored
    and then clamped; the infinities, which a tool call can deliver as
    out-of-range number literals, give 1000 and 1.  So the inputs -5, 0,
    0.5, 500000, "abc" and an absent limit give 1, 1, 1, 1000, 500 and 500.
    The hypothesis excludes nothing more than it must: the validated limit
    is in [[1, 1000]] exactly for the deliverable values. *)
Theorem limit_validation_cases :
  (∀ raw, deliverable raw → in_range (validate_limit raw))
  ∧ (∀ raw, in_range (validate_limit raw) → deliverable raw)
  ∧ (∀ raw, (∀ n, raw ≠ VNumber n) → validate_limit raw = Fin 500)
  ∧ (∀ q, validate_limit (VNumber (Fin q))
          = Fin (inject_Z (clamp (Qfloor q))))
  ∧ validate_limit (VNumber PosInf) = Fin 1000
  ∧ validate_limit (VNumber NegInf) = Fin 1
  ∧ validate_limit (VNumber (Fin (inject_Z (-5)))) = Fin 1
  ∧ validate_limit (VNumber (Fin 0)) = Fin 1
  ∧ validate_limit (VNumber (Fin (1 # 2))) = Fin 1
  ∧ validate_limit (VNumber (Fin (inject_Z 500000))) = Fin 1000
  ∧ validate_limit (VString "abc") = Fin 500
  ∧ validate_limit VUndefined = Fin 500.
Proof.
  assert (Hdefault : ∀ raw, (∀ n, raw ≠ VNumber n) →
                            validate_limit raw = Fin 500).
  { intros raw Hraw. destruct raw; try done. by destruct (Hraw n). }
  split_and!; try done.
  - intros raw Hraw.
    destruct raw as [| | |n| | |]; try by exists 500%Z.
    apply validate_limit_in_range. by intros ->.
  - intros raw Hin ->. by apply in_range_NaN in Hin.
  - apply validate_limit_finite.
Qed.

Lemma limit_validation_cases_witness :
  deliverable (VNumber (Fin (7 # 2)))
  ∧ in_range (validate_limit (VNumber (Fin (7 # 2))))
  ∧ validate_limit (VNumber (Fin (7 # 2))) = Fin (inject_Z 3).
Proof.
  destruct limit_validation_cases as (Hin & _ & _ & Hfin & _).
  assert (Hd : deliverable (VNumber (Fin (7 # 2)))) by done.
  split; [exact Hd|]. split; [exact (Hin _ Hd)|].
  rewrite Hfin. reflexivity.
Defined.


(** C10: a [NaN] limit is a number, so it goes through the floor and the
    clamp and comes out as [NaN]; [results.slice(0, NaN)] is empty; with a
    non-empty result list both servers then return a payload with
    [returned = 0], no items and [truncated = true], and [returned] is not
    [min(total, L)] for any [L] in [[1, 1000]]. *)
Theorem NaN_limit_empties_payload :
  validate_limit (VNumber NaN) = NaN
  ∧ (∀ (A : Type) (l : list A), slice0 l NaN = [])
  ∧ (∀ P params results,
       let q := validate_query (query params) in
       limit params = VNumber NaN →
       q ≠ EmptyString →
       Standalone.HasTypesFromUnreal P = true →
       Standalone.GetAPISearch P q = Normal (Some results) →
       results ≠ [] →
       Standalone.performApiSearch P (Some params)
       = ([CallHasTypes; CallSearch q],
          Normal (JSON_stringify (NaN_payload q (length results)))))
  ∧ (∀ env params results,
       let q := validate_query (query params) in
       limit params = VNumber NaN →
       q ≠ EmptyString →
       clientReady env = Normal tt →
       getAPISearch env q = Normal (Some results) →
       results ≠ [] →
       performApiSearch env (Some params) [] ≠ None
       ∧ ∀ schedule r,
           performApiSearch env (Some params) schedule = Some r →
           r = ([CallSearch q],
                Normal (JSON_stringify (NaN_payload q (length results)))))
  ∧ (∀ q n L, 0 < n → 1 ≤ L ≤ 1000 →
       returned (NaN_payload q n) ≠ Nat.min (total (NaN_payload q n)) L).
Proof.
  split_and!; [done|done| | |].
  - intros P params results q Hlim Hq Hloaded Hsearch Hres.
    rewrite (standalone_found P params results Hq Hloaded Hsearch Hres).
    rewrite Hlim. change (validate_limit (VNumber NaN)) with NaN.
    rewrite base_payload_NaN by done.
    by destruct (strict_ne_false (includeDetails params)).
  - intros env params results q Hlim Hq Hready Hsearch Hres.
    assert (Hall : ∀ schedule r,
      performApiSearch env (Some params) schedule = Some r →
      r = ([CallSearch q],
           Normal (JSON_stringify (NaN_payload q (length results))))).
    { intros schedule r Hrun.
      destruct (extension_found env params results schedule r
                  Hq Hready Hsearch Hres Hrun) as (t & its' & -> & Hcase).
      fold q in Hcase |- *.
      rewrite Hlim in *. change (validate_limit (VNumber NaN)) with NaN in *.
      rewrite base_payload_NaN in * by done.
      destruct (strict_ne_false (includeDetails params)).
      * unfold enrich in Hcase. simpl in Hcase.
        apply quiescent_Some in Hcase as [_ Hcase]. by simplify_eq.
      * by destruct Hcase as (-> & -> & ->). }
    split; [|done].
    unfold performApiSearch. fold q. clear Hall.
    destruct q; [done|]. destruct results; [done|].
    rewrite Hready, Hsearch, Hlim.
    by destruct (strict_ne_false (includeDetails params)).
  - intros q n L Hn HL. simpl. lia.
Qed.

Lemma NaN_limit_empties_payload_witness :
  Standalone.performApiSearch
    (Samples.provider true (Samples.matches 3))
    (Some (Samples.params (VNumber NaN) VUndefined))
  = ([CallHasTypes; CallSearch "GetActor"],
     Normal (JSON_stringify (NaN_payload "GetActor" 3)))
  ∧ performApiSearch (Samples.environment (Samples.matches 3))
      (Some (Samples.params (VNumber NaN) VUndefined)) []
    = Some ([CallSearch "GetActor"],
            Normal (JSON_stringify (NaN_payload "GetActor" 3))).
Proof.
  destruct NaN_limit_empties_payload as (_ & _ & Hs & He & _).
  split.
  - apply (Hs (Samples.provider true (Samples.matches 3))
              (Samples.params (VNumber NaN) VUndefined)
              (Samples.matches 3)); done.
  - destruct (He (Samples.environment (Samples.matches 3))
                (Samples.params (VNumber NaN) VUndefined)
                (Samples.matches 3)) as [_ H]; done.
Defined.


Lemma validated_range (raw : JsValue) (L : Z) :
  validate_limit raw = Fin (inject_Z L) → (1 ≤ L ≤ 1000)%Z.
Proof.
  intros Hv.
  assert (Hr : in_range (validate_limit raw)).
  { destruct raw as [| | |n| | |]; try by exists 500%Z.
    apply validate_limit_in_range. by intros ->. }
  destruct Hr as (z & Hz & Hrange). rewrite Hv in Hz.
  injection Hz as ->. done.
Qed.

(** C5: with a non-empty result list and a limit validated to an integer
    [L] of [[1, 1000]], the payload either server returns has [total] the
    number of results, [returned = min(total, L)], [truncated] exactly when
    [total > returned], and as items the first [L] results in the
    provider's order (label, type and data as projected; enrichment only
    adds [details]).  The extension server returns it for every complete
    run of the callbacks, and there is one. *)
Theorem payload_counts_and_order :
  (∀ P params results L,
     let q := validate_query (query params) in
     q ≠ EmptyString →
     Standalone.HasTypesFromUnreal P = true →
     Standalone.GetAPISearch P q = Normal (Some results) →
     results ≠ [] →
     validate_limit (limit params) = Fin (inject_Z L) →
     ∃ p, outcome (Standalone.performApiSearch P (Some params))
          = Normal (JSON_stringify p)
          ∧ payload_ok q results (Z.to_nat L) p)
  ∧ (∀ env params results L,
       let q := validate_query (query params) in
       q ≠ EmptyString →
       clientReady env = Normal tt →
       getAPISearch env q = Normal (Some results) →
       results ≠ [] →
       validate_limit (limit params) = Fin (inject_Z L) →
       (∃ schedule r, performApiSearch env (Some params) schedule = Some r)
       ∧ ∀ schedule r,
           performApiSearch env (Some params) schedule = Some r →
           ∃ p, outcome r = Normal (JSON_stringify p)
                ∧ payload_ok q results (Z.to_nat L) p).
Proof.
  split.
  - intros P params results L q Hq Hloaded Hsearch Hres Hlim.
    pose proof (validated_range _ _ Hlim) as HL.
    rewrite (standalone_found P params results Hq Hloaded Hsearch Hres).
    fold q. rewrite Hlim.
    pose proof (base_payload_ok q results L ltac:(lia)) as Hok.
    destruct (strict_ne_false (includeDetails params)); eexists;
      (split; [done|]); apply with_items_ok; try done.
    apply standalone_enriched_base.
  - intros env params results L q Hq Hready Hsearch Hres Hlim.
    pose proof (validated_range _ _ Hlim) as HL.
    pose proof (base_payload_ok q results L ltac:(lia)) as Hok.
    split.
    + destruct (strict_ne_false (includeDetails params)) eqn:Hinc.
      * destruct (enrich_total
                    (items (base_payload q results
                              (validate_limit (limit params))))
                    (λ _, Normal EmptyString))
          as (schedule & t & its' & Hen & _).
        exists schedule. eexists.
        by apply (extension_returns env params results schedule t its').
      * exists []. unfold performApiSearch. fold q.
        destruct q; [done|]. destruct results; [done|].
        rewrite Hready, Hsearch, Hinc. eexists. reflexivity.
    + intros schedule r Hrun.
      destruct (extension_found env params results schedule r
                  Hq Hready Hsearch Hres Hrun) as (t & its' & -> & Hcase).
      fold q in Hcase |- *. rewrite Hlim in *.
      eexists. split; [done|]. apply with_items_ok; [done|].
      destruct (strict_ne_false (includeDetails params)).
      * by eapply enrich_base.
      * by destruct Hcase as (_ & _ & ->).
Qed.

Lemma payload_counts_and_order_witness :
  ∃ p, outcome (Standalone.performApiSearch
                  (Samples.provider true (Samples.matches 150))
                  (Some (Samples.params (VNumber (Fin 100)) (VBool false))))
       = Normal (JSON_stringify p)
       ∧ total p = 150 ∧ returned p = 100 ∧ truncated p = true.
Proof.
  destruct payload_counts_and_order as [Hs _].
  destruct (Hs (Samples.provider true (Samples.matches 150))
              (Samples.params (VNumber (Fin 100)) (VBool false))
              (Samples.matches 150) 100%Z)
    as (p & Hout & [_ Htotal Hret Htrunc _ _]); try done.
  exists p. split; [done|].
  assert (Ht : total p = 150) by (rewrite Htotal; reflexivity).
  assert (Hr : returned p = 100) by (rewrite Hret, Ht; reflexivity).
  split_and!; [done..|]. apply Htrunc. lia.
Defined.


(** C8: a call whose tool name is not [angelscript_searchApi] is answered,
    by either server, with the text [Unknown tool: ] followed by the name
    and [isError = true]; the handler returns normally and its trace is
    empty, so the provider is not contacted.  The extension server gives
    this answer without waiting for any callback. *)
Theorem unknown_tool_reported (P : Standalone.Provider) (env : Environment)
    (request : CallToolRequest) :
  name request ≠ TOOL_NAME →
  Standalone.callTool P request
  = ([], Normal {| text := Plain ("Unknown tool: " +:+ name request);
                   isError := true |})
  ∧ callTool env request []
    = Some ([], Normal {| text := Plain ("Unknown tool: " +:+ name request);
                          isError := true |})
  ∧ ∀ schedule r,
      callTool env request schedule = Some r →
      schedule = []
      ∧ r = ([], Normal {| text := Plain ("Unknown tool: " +:+ name request);
                           isError := true |}).
Proof.
  intros Hname. apply String.eqb_neq in Hname.
  unfold Standalone.callTool, callTool. rewrite Hname.
  split_and!; [done..|].
  intros schedule r Hr. by apply quiescent_Some in Hr.
Qed.

Lemma unknown_tool_reported_witness :
  Standalone.callTool (Samples.provider true (Samples.matches 3))
    {| name := "foo"; arguments := None |}
  = ([], Normal {| text := Plain "Unknown tool: foo"; isError := true |})
  ∧ callTool (Samples.environment (Samples.matches 3))
      {| name := "foo"; arguments := None |} []
    = Some ([], Normal {| text := Plain "Unknown tool: foo";
                          isError := true |}).
Proof.
  destruct (unknown_tool_reported
              (Samples.provider true (Samples.matches 3))
              (Samples.environment (Samples.matches 3))
              {| name := "foo"; arguments := None |})
    as (Hs & He & _); [done|].
  split; [exact Hs|exact He].
Defined.

Lemma run_empty (schedule : list Callback) (st : Sched) :
  run [] (startNext [] initial) schedule = Some st →
  schedule = [] ∧ st = initial.
Proof.
  destruct schedule as [|[i s|i e|i] schedule]; simpl; [|done..].
  by intros [= <-].
Qed.

(** C9: with no item the enrichment block is over without any callback:
    it sends no request and returns the empty list, and no schedule other
    than the empty one belongs to it.  Were the promise built for an empty
    list, no request would be in flight, so no callback could ever run and
    [resolveAll] would never be called. *)
Theorem empty_enrichment_returns_at_once :
  enrich [] [] = Some ([], Normal [])
  ∧ (∀ schedule r,
       enrich [] schedule = Some r → schedule = [] ∧ r = ([], Normal []))
  ∧ (∀ schedule st,
       run [] (startNext [] initial) schedule = Some st →
       schedule = [] ∧ pending st = [] ∧ resolved st = false).
Proof.
  split_and!; [done| |].
  - intros schedule r Hr. by apply quiescent_Some in Hr.
  - intros schedule st Hrun. by apply run_empty in Hrun as [-> ->].
Qed.

Lemma empty_enrichment_returns_at_once_witness :
  ([] : list Callback) = []
  ∧ pending (startNext [] initial) = []
  ∧ resolved (startNext [] initial) = false.
Proof.
  destruct empty_enrichment_returns_at_once as (_ & _ & H).
  exact (H [] (startNext [] initial) eq_refl).
Defined.

Lemma core_window (its : list SearchResultItem) (st : Sched) :
  Core its st → (Z.of_nat (length (pending st)) ≤ activeCount st ≤ 10)%Z.
Proof. intros [_ Ha Hb _ _ _ _]. unfold CONCURRENCY_LIMIT in Hb. lia. Qed.

(** C1: in every state the callbacks can reach, for every item list, the
    requests in flight are at most [activeCount], and [activeCount] is at
    most 10; while an item is still to be requested the window is full
    ([activeCount = 10]), so it is refilled by each [finally] and not batch
    by batch; the bound also holds after each iteration of the loop of
    [startNext], in the first call and in the call made by any [finally]
    callback. *)
Theorem window_never_exceeds_ten (its : list SearchResultItem)
    (schedule : list Callback) (st : Sched) :
  run its (startNext its initial) schedule = Some st →
  (Z.of_nat (length (pending st)) ≤ activeCount st ≤ 10)%Z
  ∧ (nextIndex st < length its → activeCount st = 10%Z)
  ∧ (∀ k, let s := startNext_loop k its initial in
          (Z.of_nat (length (pending s)) ≤ activeCount s ≤ 10)%Z)
  ∧ (∀ i k, i ∈ settled st →
            let s := startNext_loop k its (release i st) in
            (Z.of_nat (length (pending s)) ≤ activeCount s ≤ 10)%Z).
Proof.
  intros Hrun.
  assert (Hfirst : ∀ k, let s := startNext_loop k its initial in
            (Z.of_nat (length (pending s)) ≤ activeCount s ≤ 10)%Z).
  { intros k.
    destruct (startNext_loop_spec its k initial (initial_core its))
      as (Hcore & _).
    by apply (core_window its). }
  destruct (decide (0 < length its)) as [Hpos|Hzero].
  - pose proof (run_inv its schedule _ st (initial_inv its Hpos) Hrun)
      as [Hcore Hfull _].
    refine (conj _ (conj Hfull (conj Hfirst _)));
      [by apply (core_window its)|].
    intros i k Hin.
    destruct (startNext_loop_spec its k (release i st)
                (release_core its i st Hcore Hin)) as (Hcore' & _).
    by apply (core_window its).
  - assert (its = []) as -> by (apply length_zero_iff_nil; lia).
    apply run_empty in Hrun as [-> ->].
    refine (conj _ (conj _ (conj Hfirst _))); [simpl; lia|simpl; lia|].
    intros i k Hin. by apply elem_of_nil in Hin.
Qed.


Lemma window_never_exceeds_ten_witness :
  ∃ st,
    run (Samples.items 25) (startNext (Samples.items 25) initial)
      (take 7 (fifo_schedule Samples.settlement 25)) = Some st
    ∧ (Z.of_nat (length (pending st)) ≤ activeCount st ≤ 10)%Z
    ∧ activeCount st = 10%Z.
Proof.
  let r := eval vm_compute in
      (run (Samples.items 25) (startNext (Samples.items 25) initial)
         (take 7 (fifo_schedule Samples.settlement 25))) in
  match r with
  | Some ?st =>
      exists st;
      assert (Hrun : run (Samples.items 25)
                       (startNext (Samples.items 25) initial)
                       (take 7 (fifo_schedule Samples.settlement 25))
                     = Some st) by (vm_compute; reflexivity);
      destruct (window_never_exceeds_ten _ _ _ Hrun) as (H1 & H2 & _);
      split; [exact Hrun | split; [exact H1 | apply H2; vm_compute; lia]]
  end.
Defined.

Lemma strict_ne_false_idem (v : JsValue) :
  strict_ne_false (VBool (strict_ne_false v)) = strict_ne_false v.
Proof. by destruct v as [| |[]| | | |]. Qed.

Lemma project_details (l : list RawMatch) :
  Forall (λ it, details it = None) (project <$> l).
Proof. apply Forall_fmap, Forall_forall. done. Qed.

(** C7: [includeDetails] counts as false for the boolean [false] only:
    either server behaves for any other value (an absent or undefined one
    included) as it does for [true].  When it is [false], no
    [fetchDetail] call appears in the trace of the invocation, whatever the
    number of items, and no item of the returned payload has [details]. *)
Theorem includeDetails_only_false_disables :
  (∀ v, strict_ne_false v = false ↔ v = VBool false)
  ∧ (∀ P q l v,
       Standalone.performApiSearch P
         (Some {| query := q; limit := l; includeDetails := v |})
       = Standalone.performApiSearch P
           (Some {| query := q; limit := l;
                    includeDetails := VBool (strict_ne_false v) |}))
  ∧ (∀ env q l v schedule,
       performApiSearch env
         (Some {| query := q; limit := l; includeDetails := v |}) schedule
       = performApiSearch env
           (Some {| query := q; limit := l;
                    includeDetails := VBool (strict_ne_false v) |}) schedule)
  ∧ (∀ P params,
       includeDetails params = VBool false →
       let r := Standalone.performApiSearch P (Some params) in
       fetches (trace r) = []
       ∧ ∀ p, outcome r = Normal (JSON_stringify p) →
              Forall (λ it, details it = None) (items p))
  ∧ (∀ env params schedule r,
       includeDetails params = VBool false →
       performApiSearch env (Some params) schedule = Some r →
       fetches (trace r) = []
       ∧ ∀ p, outcome r = Normal (JSON_stringify p) →
              Forall (λ it, details it = None) (items p)).
Proof.
  split_and!.
  - intros v. split; [|by intros ->]. by destruct v as [| |[]| | | |].
  - intros P q l v. unfold Standalone.performApiSearch.
    cbn [query limit includeDetails]. by rewrite strict_ne_false_idem.
  - intros env q l v schedule. unfold performApiSearch.
    cbn [query limit includeDetails]. by rewrite strict_ne_false_idem.
  - intros P params Hinc. unfold Standalone.performApiSearch.
    rewrite Hinc. cbn [strict_ne_false].
    destruct (validate_query (query params)) as [|c q]; [done|].
    unfold Standalone.has_types, Standalone.search.
    destruct (Standalone.HasTypesFromUnreal P); [|done].
    destruct (Standalone.GetAPISearch P (String c q))
      as [[[|m results]|]|error]; try done.
    split; [done|]. intros p [= <-]. apply project_details.
  - intros env params schedule r Hinc. unfold performApiSearch.
    rewrite Hinc. cbn [strict_ne_false].
    destruct (validate_query (query params)) as [|c q];
      [by intros [_ ->]%quiescent_Some|].
    destruct (clientReady env); [|by intros [_ ->]%quiescent_Some].
    destruct (getAPISearch env (String c q)) as [[[|m results]|]|error];
      intros [_ ->]%quiescent_Some; try done.
    split; [done|]. intros p [= <-]. apply project_details.
Qed.


Lemma includeDetails_only_false_disables_witness :
  fetches (trace (Standalone.performApiSearch
                    (Samples.provider true (Samples.matches 3))
                    (Some (Samples.params VUndefined (VBool false))))) = []
  ∧ ∀ r, performApiSearch (Samples.environment (Samples.matches 3))
           (Some (Samples.params VUndefined (VBool false))) [] = Some r →
         fetches (trace r) = [].
Proof.
  destruct includeDetails_only_false_disables as (_ & _ & _ & Hs & He).
  split.
  - by destruct (Hs (Samples.provider true (Samples.matches 3))
                   (Samples.params VUndefined (VBool false)) eq_refl).
  - intros r Hr.
    by destruct (He (Samples.environment (Samples.matches 3))
                   (Samples.params VUndefined (VBool false)) [] r eq_refl Hr).
Defined.

(** C4, as the code has it: the standalone server first checks the query,
    and an empty one is answered without looking at the database; with a
    non-empty query and no types loaded it answers the fixed
    [type database is empty] text after the single call of
    [HasTypesFromUnreal], so without [search] or [fetchDetail]; whenever it
    touches the provider at all, that check comes first.  The extension
    server has no such check: once the client is ready, a non-empty query
    is sent to the language server. *)
Theorem database_check_follows_query_check :
  (∀ P params,
     Standalone.HasTypesFromUnreal P = false →
     validate_query (query params) ≠ EmptyString →
     Standalone.performApiSearch P (Some params)
     = ([CallHasTypes], Normal (Plain Standalone.DATABASE_EMPTY)))
  ∧ (∀ P params,
       validate_query (query params) = EmptyString →
       Standalone.performApiSearch P (Some params)
       = ([], Normal (Plain NO_QUERY)))
  ∧ (∀ P params,
       trace (Standalone.performApiSearch P params) = []
       ∨ ∃ t, trace (Standalone.performApiSearch P params)
              = CallHasTypes :: t)
  ∧ (∀ env params schedule r,
       validate_query (query params) ≠ EmptyString →
       clientReady env = Normal tt →
       performApiSearch env (Some params) schedule = Some r →
       ∃ t, trace r = CallSearch (validate_query (query params)) :: t).
Proof.
  split_and!.
  - intros P params Hloaded Hq. unfold Standalone.performApiSearch.
    destruct (validate_query (query params)); [done|].
    unfold Standalone.has_types. by rewrite Hloaded.
  - intros P params Hq. unfold Standalone.performApiSearch. by rewrite Hq.
  - intros P [params|]; [|by left]. unfold Standalone.performApiSearch.
    destruct (validate_query (query params)) as [|c q]; [by left|].
    right. unfold Standalone.has_types, Standalone.search.
    destruct (Standalone.HasTypesFromUnreal P); [|by eexists].
    cbn -[for_each base_payload].
    destruct (Standalone.GetAPISearch P (String c q))
      as [[[|m results]|]|error]; cbn -[for_each base_payload];
      try by eexists.
    destruct (strict_ne_false (includeDetails params)).
    + rewrite for_each_enrich_eq. cbn -[base_payload]. by eexists.
    + by eexists.
  - intros env params schedule r Hq Hready. unfold performApiSearch.
    destruct (validate_query (query params)) as [|c q]; [done|].
    rewrite Hready.
    destruct (getAPISearch env (String c q)) as [[[|m results]|]|error];
      try (intros [_ ->]%quiescent_Some; by eexists).
    destruct (strict_ne_false (includeDetails params));
      [|intros [_ ->]%quiescent_Some; by eexists].
    destruct (enrich _ schedule) as [[t [its'|error]]|]; [| |done];
      intros [= <-]; by eexists.
Qed.

Lemma database_check_follows_query_check_witness :
  Standalone.performApiSearch (Samples.provider false (Samples.matches 3))
    (Some (Samples.params VUndefined VUndefined))
  = ([CallHasTypes], Normal (Plain Standalone.DATABASE_EMPTY)).
Proof.
  destruct database_check_follows_query_check as (H & _).
  by apply (H (Samples.provider false (Samples.matches 3))
              (Samples.params VUndefined VUndefined)).
Defined.

(** C4 as stated fails: the provider of the standalone server reports no
    types loaded, the query is blank, and the answer is the
    [No query provided] text, not the [type database is empty] one; the
    extension server, asked while the language server has nothing to
    return, sends the search request and answers [No ... results]. *)
Lemma database_check_counterexample :
  Standalone.HasTypesFromUnreal (Samples.provider false []) = false
  ∧ Standalone.performApiSearch (Samples.provider false [])
      (Some {| query := VString "   "; limit := VUndefined;
               includeDetails := VUndefined |})
    = ([], Normal (Plain NO_QUERY))
  ∧ NO_QUERY ≠ Standalone.DATABASE_EMPTY
  ∧ performApiSearch (Samples.environment [])
      (Some (Samples.params VUndefined VUndefined)) []
    = Some ([CallSearch "GetActor"],
            Normal (Plain (no_results "GetActor"))).
Proof. split_and!; done. Qed.


Lemma standalone_fetches (P : Standalone.Provider)
    (its : list SearchResultItem) :
  fetches (its ≫= standalone_item_trace P)
  = filter (λ d, truthy d = true) (data <$> its).
Proof.
  induction its as [|it its IH]; [done|].
  rewrite bind_cons, fetches_app, IH, fmap_cons, filter_cons.
  unfold standalone_item_trace at 1.
  destruct (truthy (data it)) eqn:Ht.
  - rewrite decide_True by done.
    by destruct (Standalone.GetAPIDetails P (data it)).
  - by rewrite decide_False by done.
Qed.

(** Two complete runs that record the same details for every request
    leave the same items. *)
Lemma enrich_deterministic (its its1 its2 : list SearchResultItem)
    (s1 s2 : list Callback) (t1 t2 : list Effect) :
  enrich its s1 = Some (t1, Normal its1) →
  enrich its s2 = Some (t2, Normal its2) →
  (∀ i d, detail_of s1 i d ↔ detail_of s2 i d) →
  its1 = its2.
Proof.
  intros H1 H2 Hsame.
  destruct (enrich_spec _ _ _ _ H1) as (? & [= <-] & Hlen1 & _ & _ & Hf1 & _).
  destruct (enrich_spec _ _ _ _ H2) as (? & [= <-] & Hlen2 & _ & Hd2 & _).
  apply list_eq. intros i. destruct (its !! i) as [it|] eqn:Hit.
  - destruct (Hd2 i it Hit) as (d & -> & Hd).
    apply Hsame in Hd. destruct (Hf1 i d Hd) as (it' & Hit' & ->).
    congruence.
  - apply lookup_ge_None in Hit.
    by rewrite !(proj2 (lookup_ge_None _ i)) by lia.
Qed.

(** C2, as the code has it.  The extension server requests the details of
    every item exactly once, in index order, each with the token of its
    own item; every complete run returns the serialized payload; a rejected
    request is logged under the label of its item and leaves that item
    without [details]; and if the request of index [k] is the only one
    rejected, every other item carries the string its own request was
    fulfilled with.  A complete run exists for any answers of the server.
    The standalone server requests exactly the items whose token is
    truthy, once each and in order, keeps the details of an answer that is
    not the empty string, logs a thrown error under the label of the item,
    leaves that item as it was, and returns the payload. *)
Theorem enrichment_isolates_failures :
  (∀ env params results schedule r,
     let q := validate_query (query params) in
     let payload := base_payload q results (validate_limit (limit params)) in
     q ≠ EmptyString →
     clientReady env = Normal tt →
     getAPISearch env q = Normal (Some results) →
     results ≠ [] →
     strict_ne_false (includeDetails params) = true →
     performApiSearch env (Some params) schedule = Some r →
     ∃ its',
       outcome r = Normal (JSON_stringify (with_items payload its'))
       ∧ fetches (trace r) = data <$> items payload
       ∧ length its' = length (items payload)
       ∧ (∀ i it, items payload !! i = Some it →
            ∃ d, its' !! i = Some (set_details d it)
                 ∧ detail_of schedule i d)
       ∧ (∀ k error, Catch k error ∈ schedule →
            (∃ it, items payload !! k = Some it
                   ∧ its' !! k = Some (set_details None it)
                   ∧ ConsoleError (fetch_failed it) error ∈ trace r)
            ∧ ((∀ j e, Catch j e ∈ schedule → j = k) →
               ∀ i it, i ≠ k → items payload !! i = Some it →
                 ∃ s, Then i s ∈ schedule
                      ∧ its' !! i = Some (set_details (Some s) it))))
  ∧ (∀ env params results settlement,
       let q := validate_query (query params) in
       q ≠ EmptyString →
       clientReady env = Normal tt →
       getAPISearch env q = Normal (Some results) →
       results ≠ [] →
       ∃ schedule r,
         performApiSearch env (Some params) schedule = Some r
         ∧ Forall (agrees settlement) schedule)
  ∧ (∀ P params results,
       let q := validate_query (query params) in
       let payload := base_payload q results (validate_limit (limit params)) in
       q ≠ EmptyString →
       Standalone.HasTypesFromUnreal P = true →
       Standalone.GetAPISearch P q = Normal (Some results) →
       results ≠ [] →
       strict_ne_false (includeDetails params) = true →
       let r := Standalone.performApiSearch P (Some params) in
       outcome r
       = Normal (JSON_stringify
                   (with_items payload
                      (standalone_enriched P <$> items payload)))
       ∧ fetches (trace r)
         = filter (λ d, truthy d = true) (data <$> items payload)
       ∧ (∀ it error,
            it ∈ items payload → truthy (data it) = true →
            Standalone.GetAPIDetails P (data it) = Throw error →
            standalone_enriched P it = it
            ∧ ConsoleError (fetch_failed it) error ∈ trace r)
       ∧ (∀ it c s,
            truthy (data it) = true →
            Standalone.GetAPIDetails P (data it) = Normal (String c s) →
            standalone_enriched P it = set_details (Some (String c s)) it)).
Proof.
  split_and!.
  - intros env params results schedule r q payload Hq Hready Hsearch Hres
      Hinc Hrun.
    destruct (extension_found env params results schedule r
                Hq Hready Hsearch Hres Hrun) as (t & its' & -> & Hen).
    rewrite Hinc in Hen. fold q payload in Hen |- *.
    destruct (enrich_spec _ _ _ _ Hen)
      as (? & [= <-] & Hlen & Hf & Hd & Hfun & Hlog).
    exists its'. split_and!; [done|done|done|done|].
    intros k error Hk. split.
    + destruct (Hfun k None) as (it & Hit & Hit'); [by exists error|].
      destruct (Hlog k error Hk) as (it2 & Hit2 & Hin).
      exists it. split_and!; [done|done|].
      assert (it2 = it) as <- by congruence. by right.
    + intros Honly i it Hne Hit.
      destruct (Hd i it Hit) as ([s|] & Hit' & Hdet).
      * by exists s.
      * destruct Hdet as [e He]. by destruct (Hne (Honly i e He)).
  - intros env params results settlement q Hq Hready Hsearch Hres.
    destruct (strict_ne_false (includeDetails params)) eqn:Hinc.
    + destruct (enrich_total
                  (items (base_payload q results
                            (validate_limit (limit params)))) settlement)
        as (schedule & t & its' & Hen & Hag).
      exists schedule. eexists. split; [|done].
      by apply (extension_returns env params results schedule t its').
    + exists []. unfold performApiSearch. fold q.
      destruct q; [done|]. destruct results; [done|].
      rewrite Hready, Hsearch, Hinc. eexists. split; [reflexivity|done].
  - intros P params results q payload Hq Hloaded Hsearch Hres Hinc r.
    subst r.
    rewrite (standalone_found P params results Hq Hloaded Hsearch Hres).
    rewrite Hinc. fold q payload. cbn [outcome trace fst snd fetches omap].
    split_and!.
    + done.
    + apply standalone_fetches.
    + intros it error Hin Ht Hthrow. split.
      * unfold standalone_enriched. by rewrite Ht, Hthrow.
      * do 2 right. apply list_elem_of_bind. exists it. split; [|done].
        unfold standalone_item_trace. rewrite Ht, Hthrow.
        right. by left.
    + intros it c s Ht Hok. unfold standalone_enriched. by rewrite Ht, Hok.
Qed.


Lemma enrichment_isolates_failures_witness :
  (∃ r its',
     performApiSearch (Samples.environment (Samples.matches 3))
       (Some (Samples.params VUndefined VUndefined))
       (fifo_schedule Samples.settlement 3) = Some r
     ∧ outcome r
       = Normal (JSON_stringify
                   (with_items
                      (base_payload "GetActor" (Samples.matches 3) (Fin 500))
                      its'))
     ∧ fetches (trace r) = data <$> Samples.items 3
     ∧ details <$> its' = [Some "doc"; None; Some "doc"]%string)
  ∧ fetches (trace (Standalone.performApiSearch
                      (Samples.provider true (Samples.matches 3))
                      (Some (Samples.params VUndefined VUndefined))))
    = data <$> Samples.items 3.
Proof.
  destruct enrichment_isolates_failures as (He & _ & Hs).
  split.
  - let r := eval vm_compute in
        (performApiSearch (Samples.environment (Samples.matches 3))
           (Some (Samples.params VUndefined VUndefined))
           (fifo_schedule Samples.settlement 3)) in
    match r with
    | Some ?r0 =>
        assert (Hrun : performApiSearch
                         (Samples.environment (Samples.matches 3))
                         (Some (Samples.params VUndefined VUndefined))
                         (fifo_schedule Samples.settlement 3) = Some r0)
          by (vm_compute; reflexivity);
        destruct (He (Samples.environment (Samples.matches 3))
                    (Samples.params VUndefined VUndefined)
                    (Samples.matches 3)
                    (fifo_schedule Samples.settlement 3) r0)
          as (its' & Hout & Hfetch & _); [done..|];
        exists r0, its'; split_and!; [exact Hrun|exact Hout|exact Hfetch|];
        vm_compute in Hout; injection Hout as <-; reflexivity
    end.
  - destruct (Hs (Samples.provider true (Samples.matches 3))
                (Samples.params VUndefined VUndefined)
                (Samples.matches 3)) as (_ & Hfetch & _); [done..|].
    rewrite Hfetch. reflexivity.
Defined.

(** C2 as stated fails on the standalone server: the provider returns one
    match without a [data] token, details are asked for, and the payload
    comes back with that item and without any [fetchDetail] call. *)
Lemma enrichment_counterexample :
  Standalone.performApiSearch
    (Samples.provider true [Samples.bare_hit])
    (Some (Samples.params VUndefined VUndefined))
  = ([CallHasTypes; CallSearch "GetActor"],
     Normal (JSON_stringify
               {| payload_query := "GetActor"; total := 1; returned := 1;
                  truncated := false;
                  items := [{| label := "AActor"; type := VUndefined;
                               data := VUndefined; details := None |}] |})).
Proof. reflexivity. Qed.

(** C3: two complete runs of the same invocation whose callbacks record
    the same details for every request, in whatever order they come,
    resolve to the same text.  The items of a returned payload are the
    projection of the provider's slice in the provider's order; and when
    details are included, the request of index [i] carries the token of
    item [i] and item [i] carries what the callback of request [i]
    recorded. *)
Theorem completion_order_is_irrelevant :
  (∀ env params s1 s2 r1 r2,
     performApiSearch env params s1 = Some r1 →
     performApiSearch env params s2 = Some r2 →
     (∀ i d, detail_of s1 i d ↔ detail_of s2 i d) →
     outcome r1 = outcome r2)
  ∧ (∀ env params results schedule r,
       let q := validate_query (query params) in
       q ≠ EmptyString →
       clientReady env = Normal tt →
       getAPISearch env q = Normal (Some results) →
       results ≠ [] →
       performApiSearch env (Some params) schedule = Some r →
       ∃ p, outcome r = Normal (JSON_stringify p)
            ∧ set_details None <$> items p
              = project <$> slice0 results (validate_limit (limit params))
            ∧ (strict_ne_false (includeDetails params) = true →
               fetches (trace r) = data <$> items p
               ∧ ∀ i it, items p !! i = Some it →
                         detail_of schedule i (details it))).
Proof.
  split.
  - intros env [params|] s1 s2 r1 r2 H1 H2 Hsame;
      unfold performApiSearch in H1, H2.
    2:{ apply quiescent_Some in H1 as [_ ->].
        by apply quiescent_Some in H2 as [_ ->]. }
    destruct (validate_query (query params)) as [|c q].
    { apply quiescent_Some in H1 as [_ ->].
      by apply quiescent_Some in H2 as [_ ->]. }
    destruct (clientReady env).
    2:{ apply quiescent_Some in H1 as [_ ->].
        by apply quiescent_Some in H2 as [_ ->]. }
    destruct (getAPISearch env (String c q)) as [[[|m results]|]|error];
      try (apply quiescent_Some in H1 as [_ ->];
           by apply quiescent_Some in H2 as [_ ->]).
    destruct (strict_ne_false (includeDetails params)).
    2:{ apply quiescent_Some in H1 as [_ ->].
        by apply quiescent_Some in H2 as [_ ->]. }
    destruct (enrich _ s1) as [[t1 res1]|] eqn:He1; [|done].
    destruct (enrich _ s2) as [[t2 res2]|] eqn:He2; [|done].
    destruct (enrich_spec _ _ _ _ He1) as (its1 & -> & _).
    destruct (enrich_spec _ _ _ _ He2) as (its2 & -> & _).
    simpl in H1, H2. simplify_eq. simpl.
    by rewrite (enrich_deterministic _ _ _ _ _ _ _ He1 He2 Hsame).
  - intros env params results schedule r q Hq Hready Hsearch Hres Hrun.
    destruct (extension_found env params results schedule r
                Hq Hready Hsearch Hres Hrun) as (t & its' & -> & Hcase).
    fold q in Hcase |- *.
    set (payload := base_payload q results (validate_limit (limit params)))
      in *.
    exists (with_items payload its'). split; [done|].
    destruct (strict_ne_false (includeDetails params)).
    + destruct (enrich_spec _ _ _ _ Hcase)
        as (? & [= <-] & Hlen & Hf & Hd & _).
      split_and!.
      * cbn [with_items items]. rewrite (enrich_base _ _ _ _ Hcase).
        subst payload. cbn [base_payload items].
        rewrite <- list_fmap_compose. by apply list_fmap_ext.
      * intros _. split.
        -- unfold trace. cbn [fst with_items items].
           change (fetches (CallSearch q :: t)) with (fetches t).
           rewrite Hf.
           apply list_eq. intros i. rewrite !list_lookup_fmap.
           destruct (items payload !! i) as [it|] eqn:Hit.
           ++ by destruct (Hd i it Hit) as (d & -> & _).
           ++ apply lookup_ge_None in Hit.
              by rewrite (proj2 (lookup_ge_None its' i)) by lia.
        -- intros i it' Hit'. cbn [with_items items] in Hit'.
           destruct (items payload !! i) as [it|] eqn:Hit.
           ++ destruct (Hd i it Hit) as (d & Hit2 & Hdet).
              rewrite Hit2 in Hit'. by simplify_eq.
           ++ apply lookup_ge_None in Hit.
              apply lookup_lt_Some in Hit'. lia.
    + destruct Hcase as (_ & _ & ->). split; [|done].
      subst payload. cbn [with_items base_payload items].
      rewrite <- list_fmap_compose. by apply list_fmap_ext.
Qed.

Lemma completion_order_is_irrelevant_witness :
  ∃ r1 r2,
    performApiSearch (Samples.environment (Samples.matches 2))
      (Some (Samples.params VUndefined VUndefined)) Samples.in_order
    = Some r1
    ∧ performApiSearch (Samples.environment (Samples.matches 2))
        (Some (Samples.params VUndefined VUndefined)) Samples.reversed
      = Some r2
    ∧ outcome r1 = outcome r2.
Proof.
  destruct completion_order_is_irrelevant as (H & _).
  let r := eval vm_compute in
      (performApiSearch (Samples.environment (Samples.matches 2))
         (Some (Samples.params VUndefined VUndefined)) Samples.in_order) in
  let r' := eval vm_compute in
      (performApiSearch (Samples.environment (Samples.matches 2))
         (Some (Samples.params VUndefined VUndefined)) Samples.reversed) in
  match constr:((r, r')) with
  | (Some ?r1, Some ?r2) =>
      assert (H1 : performApiSearch
                     (Samples.environment (Samples.matches 2))
                     (Some (Samples.params VUndefined VUndefined))
                     Samples.in_order = Some r1)
        by (vm_compute; reflexivity);
      assert (H2 : performApiSearch
                     (Samples.environment (Samples.matches 2))
                     (Some (Samples.params VUndefined VUndefined))
                     Samples.reversed = Some r2)
        by (vm_compute; reflexivity);
      exists r1, r2; split_and!; [exact H1|exact H2|];
      apply (H _ _ _ _ _ _ H1 H2)
  end.
  intros i [s|]; unfold detail_of, Samples.in_order, Samples.reversed.
  - rewrite !elem_of_cons, !elem_of_nil. tauto.
  - split; intros [e He]; exists e; revert He;
      rewrite !elem_of_cons, !elem_of_nil; tauto.
Defined.


(** ** Further properties of the pipeline *)

(** X1: a query that is not a string, or is blank after trimming, is
    answered by either server with the fixed [No query provided] text and
    an empty trace: the provider is not contacted. *)
Theorem empty_query_short_circuits (P : Standalone.Provider)
    (env : Environment) (params : SearchParams) :
  validate_query (query params) = EmptyString →
  Standalone.performApiSearch P (Some params) = ([], Normal (Plain NO_QUERY))
  ∧ performApiSearch env (Some params) [] = Some ([], Normal (Plain NO_QUERY))
  ∧ ∀ schedule r,
      performApiSearch env (Some params) schedule = Some r →
      r = ([], Normal (Plain NO_QUERY)).
Proof.
  intros Hq. unfold Standalone.performApiSearch, performApiSearch.
  rewrite Hq. split_and!; [done..|].
  intros schedule r Hr. by apply quiescent_Some in Hr as [_ ->].
Qed.

Lemma empty_query_short_circuits_witness :
  Standalone.performApiSearch (Samples.provider true (Samples.matches 3))
    (Some {| query := VNumber (Fin 7); limit := VUndefined;
             includeDetails := VUndefined |})
  = ([], Normal (Plain NO_QUERY))
  ∧ performApiSearch (Samples.environment (Samples.matches 3))
      (Some {| query := VString "  "; limit := VUndefined;
               includeDetails := VUndefined |}) []
    = Some ([], Normal (Plain NO_QUERY)).
Proof.
  split.
  - by destruct (empty_query_short_circuits
                   (Samples.provider true (Samples.matches 3))
                   (Samples.environment (Samples.matches 3))
                   {| query := VNumber (Fin 7); limit := VUndefined;
                      includeDetails := VUndefined |} eq_refl)
      as (H & _).
  - by destruct (empty_query_short_circuits
                   (Samples.provider true (Samples.matches 3))
                   (Samples.environment (Samples.matches 3))
                   {| query := VString "  "; limit := VUndefined;
                      includeDetails := VUndefined |} eq_refl)
      as (_ & H & _).
Defined.

(** X2: a failure of the search itself does not leave [performApiSearch]
    as an exception: it is logged and answered with the fixed failure text.
    The extension server answers so as soon as the search request is
    rejected, awaiting no further callback, and no other answer is
    possible; the same holds when the readiness promise is rejected, and
    then no request is sent at all. *)
Theorem search_failure_is_reported :
  (∀ P params error,
     let q := validate_query (query params) in
     q ≠ EmptyString →
     Standalone.HasTypesFromUnreal P = true →
     Standalone.GetAPISearch P q = Throw error →
     Standalone.performApiSearch P (Some params)
     = ([CallHasTypes; CallSearch q;
         ConsoleError "angelscript_searchApi tool failed:" error],
        Normal (Plain Standalone.TOOL_FAILED)))
  ∧ (∀ env params error,
       let q := validate_query (query params) in
       let answer :=
         ([CallSearch q;
           ConsoleError "angelscript_searchApi MCP tool failed:" error],
          Normal (Plain TOOL_FAILED)) in
       q ≠ EmptyString →
       clientReady env = Normal tt →
       getAPISearch env q = Throw error →
       performApiSearch env (Some params) [] = Some answer
       ∧ ∀ schedule r,
           performApiSearch env (Some params) schedule = Some r →
           schedule = [] ∧ r = answer)
  ∧ (∀ env params error,
       let answer :=
         ([ConsoleError "angelscript_searchApi MCP tool failed:" error],
          Normal (Plain TOOL_FAILED)) in
       validate_query (query params) ≠ EmptyString →
       clientReady env = Throw error →
       performApiSearch env (Some params) [] = Some answer
       ∧ ∀ schedule r,
           performApiSearch env (Some params) schedule = Some r →
           schedule = [] ∧ r = answer).
Proof.
  split_and!.
  - intros P params error q Hq Hloaded Hsearch.
    unfold Standalone.performApiSearch. fold q.
    destruct q; [done|].
    unfold Standalone.has_types, Standalone.search.
    by rewrite Hloaded, Hsearch.
  - intros env params error q answer Hq Hready Hsearch. subst answer.
    unfold performApiSearch. fold q. destruct q; [done|].
    rewrite Hready, Hsearch. split; [done|].
    intros schedule r. by intros [-> ->]%quiescent_Some.
  - intros env params error answer Hq Hready. subst answer.
    unfold performApiSearch.
    destruct (validate_query (query params)); [done|].
    rewrite Hready. split; [done|].
    intros schedule r. by intros [-> ->]%quiescent_Some.
Qed.

Lemma search_failure_is_reported_witness :
  Standalone.performApiSearch Samples.broken_provider
    (Some (Samples.params VUndefined VUndefined))
  = ([CallHasTypes; CallSearch "GetActor";
      ConsoleError "angelscript_searchApi tool failed:" "database locked"],
     Normal (Plain Standalone.TOOL_FAILED))
  ∧ performApiSearch Samples.broken_environment
      (Some (Samples.params VUndefined VUndefined)) []
    = Some ([CallSearch "GetActor";
             ConsoleError "angelscript_searchApi MCP tool failed:"
               "connection closed"],
            Normal (Plain TOOL_FAILED))
  ∧ performApiSearch Samples.unready_environment
      (Some (Samples.params VUndefined VUndefined)) []
    = Some ([ConsoleError "angelscript_searchApi MCP tool failed:"
               "client stopped"],
            Normal (Plain TOOL_FAILED)).
Proof.
  destruct search_failure_is_reported as (Hs & He & Hr).
  split_and!.
  - by apply (Hs Samples.broken_provider
                (Samples.params VUndefined VUndefined)).
  - by destruct (He Samples.broken_environment
                   (Samples.params VUndefined VUndefined)
                   "connection closed"%string) as [H _].
  - by destruct (Hr Samples.unready_environment
                   (Samples.params VUndefined VUndefined)
                   "client stopped"%string) as [H _].
Defined.

(** X3: the scheduler cannot get stuck and cannot run for ever.  From a
    state reached by any callbacks, whatever the server answers to the
    requests still in flight, finitely many further callbacks lead to the
    call of [resolveAll]; a run has at most two callbacks per item, and
    [resolveAll] is called after exactly two per item, when every index
    was requested and no request is active. *)
Theorem scheduler_always_completes (its : list SearchResultItem)
    (schedule : list Callback) (st : Sched)
    (settlement : nat → Completion string) :
  0 < length its →
  run its (startNext its initial) schedule = Some st →
  (∃ rest st', run its st rest = Some st'
               ∧ resolved st' = true
               ∧ Forall (agrees settlement) rest)
  ∧ length schedule ≤ 2 * length its
  ∧ (resolved st = true →
     length schedule = 2 * length its
     ∧ nextIndex st = length its ∧ activeCount st = 0%Z
     ∧ pending st = [] ∧ length (allDetails st) = length its).
Proof.
  intros Hpos Hrun.
  pose proof (initial_inv its Hpos) as Hinv0.
  destruct (run_spec its schedule _ st Hinv0 Hrun)
    as (Hinv & Hall & _ & Hrem & _).
  destruct (startNext_spec its initial (initial_core its))
    as (Hcore0 & Hall0 & Hs0 & _ & _ & _ & Hp0 & _ & _).
  assert (Hstart : remaining its (startNext its initial) = 2 * length its).
  { pose proof (core_next _ _ Hcore0) as Hn0. unfold remaining.
    rewrite Hp0, Hs0. generalize dependent (nextIndex (startNext its initial)).
    intros n _ Hn0. cbn [initial pending settled nextIndex length app].
    rewrite length_seq. lia. }
  split_and!.
  - by apply (completes its settlement (remaining its st)).
  - lia.
  - intros Hres. destruct Hinv as [Hcore _ Hr].
    apply Hr in Hres as [Hnext Hact].
    destruct Hcore as [_ Ha _ Hi _ _ _].
    assert (Hp : pending st = []) by (apply length_zero_iff_nil; lia).
    assert (Hse : settled st = []) by (apply length_zero_iff_nil; lia).
    split_and!; try done.
    + unfold remaining in Hrem at 1. rewrite Hnext, Hp, Hse in Hrem.
      simpl in Hrem. lia.
    + rewrite Hp, Hnext in Hi. simpl in Hi.
      apply Permutation_length in Hi.
      by rewrite length_fmap, length_seq in Hi.
Qed.

Lemma scheduler_always_completes_witness :
  ∃ st,
    run (Samples.items 3) (startNext (Samples.items 3) initial)
      (take 2 (fifo_schedule Samples.settlement 3)) = Some st
    ∧ ∃ rest st', run (Samples.items 3) st rest = Some st'
                  ∧ resolved st' = true.
Proof.
  let r := eval vm_compute in
      (run (Samples.items 3) (startNext (Samples.items 3) initial)
         (take 2 (fifo_schedule Samples.settlement 3))) in
  match r with
  | Some ?st =>
      exists st;
      assert (Hrun : run (Samples.items 3)
                       (startNext (Samples.items 3) initial)
                       (take 2 (fifo_schedule Samples.settlement 3))
                     = Some st) by (vm_compute; reflexivity);
      destruct (scheduler_always_completes (Samples.items 3) _ _
                  Samples.settlement ltac:(vm_compute; lia) Hrun)
        as ((rest & st' & Hrest & Hres & _) & _);
      split; [exact Hrun | by exists rest, st']
  end.
Defined.

End Specification.

(** * Further coverage *)

(** ** White space *)

Lemma rev_app_app (s t u : string) :
  String.rev_app (String.rev_app s t) u = String.rev_app t (s +:+ u).
Proof.
  revert t u. induction s as [|a s IH]; intros t u; [done|].
  simpl. by rewrite IH.
Qed.

Lemma string_app_nil_r (s : string) : s +:+ EmptyString = s.
Proof.
  induction s as [|a s IH]; [done|].
  change (String a (s +:+ EmptyString) = String a s). by rewrite IH.
Qed.

Lemma string_rev_involutive (s : string) : String.rev (String.rev s) = s.
Proof.
  unfold String.rev. by rewrite rev_app_app, string_app_nil_r.
Qed.

Lemma string_app_assoc (s t u : string) :
  (s +:+ t) +:+ u = s +:+ (t +:+ u).
Proof.
  induction s as [|a s IH]; [done|].
  change (String a ((s +:+ t) +:+ u) = String a (s +:+ (t +:+ u))).
  by rewrite IH.
Qed.

Lemma rev_app_spec (s t : string) :
  String.rev_app s t = String.rev s +:+ t.
Proof.
  unfold String.rev. revert t. induction s as [|a s IH]; intros t; [done|].
  cbn [String.rev_app].
  rewrite (IH (String a t)), (IH (String a EmptyString)).
  by rewrite string_app_assoc.
Qed.

Lemma rev_app_append (s t u : string) :
  String.rev_app (s +:+ t) u = String.rev_app t (String.rev_app s u).
Proof.
  revert u. induction s as [|a s IH]; intros u; [done|].
  change (String.rev_app (s +:+ t) (String a u)
          = String.rev_app t (String.rev_app s (String a u))).
  apply IH.
Qed.

Lemma string_rev_app (s t : string) :
  String.rev (s +:+ t) = String.rev t +:+ String.rev s.
Proof.
  unfold String.rev at 1. rewrite rev_app_append.
  apply rev_app_spec.
Qed.

Lemma trimStart_clean (s : string) : starts_clean (trimStart s).
Proof.
  induction s as [|c s IH]; [done|]. simpl.
  by destruct (is_whitespace c) eqn:Hc.
Qed.

Lemma trimStart_suffix (s : string) : ∃ p, s = p +:+ trimStart s.
Proof.
  induction s as [|c s [p IH]]; [by exists EmptyString|]. simpl.
  destruct (is_whitespace c).
  - exists (String c p).
    change (String c s = String c (p +:+ trimStart s)). by rewrite <- IH.
  - by exists EmptyString.
Qed.

Lemma starts_clean_app (s t : string) :
  starts_clean (s +:+ t) → s ≠ EmptyString → starts_clean s.
Proof. by destruct s. Qed.

(** [trim] leaves no white space at either end. *)
Lemma trim_trimmed (s : string) : trimmed (trim s).
Proof.
  unfold trimmed, trim.
  set (u := trimStart s). set (v := trimStart (String.rev u)).
  split.
  - destruct (trimStart_suffix (String.rev u)) as [p Hp]. fold v in Hp.
    apply (f_equal String.rev) in Hp.
    rewrite string_rev_involutive, string_rev_app in Hp.
    destruct (String.rev v) as [|c w] eqn:Hv; [done|].
    apply (starts_clean_app _ (String.rev p)); [|done].
    rewrite <- Hp. apply trimStart_clean.
  - rewrite string_rev_involutive. apply trimStart_clean.
Qed.

(** ** The shape of an invocation *)

Section Shapes.
Import Extension SchedInv.

Lemma searches_app (t1 t2 : list Effect) :
  searches (t1 ++ t2) = searches t1 ++ searches t2.
Proof. apply omap_app. Qed.

Lemma standalone_item_searches (P : Standalone.Provider)
    (its : list SearchResultItem) :
  searches (its ≫= standalone_item_trace P) = [].
Proof.
  induction its as [|it its IH]; [done|].
  rewrite bind_cons, searches_app, IH, app_nil_r.
  unfold standalone_item_trace. destruct (truthy (data it)); [|done].
  by destruct (Standalone.GetAPIDetails P (data it)).
Qed.

Lemma startNext_loop_searches (fuel : nat) (its : list SearchResultItem)
    (st : Sched) :
  searches (effects (startNext_loop fuel its st)) = searches (effects st).
Proof.
  revert st. induction fuel as [|fuel IH]; intros st; [done|].
  cbn [startNext_loop]. destruct (can_start its st); [|done].
  destruct (its !! nextIndex st) as [item|]; [|done].
  rewrite IH. unfold dispatch. cbn [effects].
  by rewrite searches_app, app_nil_r.
Qed.

Lemma callback_searches (its : list SearchResultItem) (st st' : Sched)
    (cb : Callback) :
  callback its st cb = Some st' →
  searches (effects st') = searches (effects st).
Proof.
  destruct cb as [i details|i error|i]; simpl.
  - case_bool_decide; [|done]. intros [= <-]. simpl. by rewrite app_nil_r.
  - case_bool_decide; [|done]. destruct (its !! i); [|done].
    intros [= <-]. simpl. by rewrite searches_app, app_nil_r.
  - case_bool_decide; [|done]. intros [= <-]. unfold finally.
    case_match; [done|]. unfold startNext.
    by rewrite startNext_loop_searches.
Qed.

Lemma run_searches (its : list SearchResultItem) (schedule : list Callback)
    (st st' : Sched) :
  run its st schedule = Some st' →
  searches (effects st') = searches (effects st).
Proof.
  revert st. induction schedule as [|cb schedule IH]; intros st; simpl.
  - by intros [= <-].
  - destruct (callback its st cb) as [st1|] eqn:Hcb; [|done]. simpl.
    intros Hrun. rewrite (IH _ Hrun). by eapply callback_searches.
Qed.

Lemma enrich_searches (its : list SearchResultItem)
    (schedule : list Callback) (t : list Effect)
    (res : Completion (list SearchResultItem)) :
  enrich its schedule = Some (t, res) → searches t = [].
Proof.
  unfold enrich. case_bool_decide.
  - destruct (run its (startNext its initial) schedule) as [st|] eqn:Hrun;
      [|done].
    simpl. destruct (resolved st); [|done]. intros [= <- _].
    rewrite (run_searches _ _ _ _ Hrun). unfold startNext.
    by rewrite startNext_loop_searches.
  - by intros [_ [= -> _]]%quiescent_Some.
Qed.

(** Every way an invocation of the standalone server can go. *)
Lemma standalone_cases (P : Standalone.Provider) (params : SearchParams) :
  let q := validate_query (query params) in
  let r := Standalone.performApiSearch P (Some params) in
  (q = EmptyString ∧ r = ([], Normal (Plain NO_QUERY)))
  ∨ (q ≠ EmptyString ∧ Standalone.HasTypesFromUnreal P = false
     ∧ r = ([CallHasTypes], Normal (Plain Standalone.DATABASE_EMPTY)))
  ∨ (q ≠ EmptyString ∧ Standalone.HasTypesFromUnreal P = true
     ∧ ∃ error, Standalone.GetAPISearch P q = Throw error
         ∧ r = ([CallHasTypes; CallSearch q;
                 ConsoleError "angelscript_searchApi tool failed:" error],
                Normal (Plain Standalone.TOOL_FAILED)))
  ∨ (q ≠ EmptyString ∧ Standalone.HasTypesFromUnreal P = true
     ∧ (Standalone.GetAPISearch P q = Normal None
        ∨ Standalone.GetAPISearch P q = Normal (Some []))
     ∧ r = ([CallHasTypes; CallSearch q], Normal (Plain (no_results q))))
  ∨ (q ≠ EmptyString ∧ Standalone.HasTypesFromUnreal P = true
     ∧ ∃ results t its',
         results ≠ []
         ∧ Standalone.GetAPISearch P q = Normal (Some results)
         ∧ r = (CallHasTypes :: CallSearch q :: t,
                Normal (JSON_stringify
                  (with_items
                     (base_payload q results (validate_limit (limit params)))
                     its')))
         ∧ length its'
           = length (slice0 results (validate_limit (limit params)))
         ∧ searches t = []
         ∧ length (fetches t) ≤ length its').
Proof.
  intros q r.
  destruct (decide (q = EmptyString)) as [Hq|Hq].
  { left. split; [done|]. subst r. unfold Standalone.performApiSearch.
    fold q. by rewrite Hq. }
  right.
  destruct (Standalone.HasTypesFromUnreal P) eqn:Hloaded.
  2:{ left. split_and!; [done..|]. subst r.
      unfold Standalone.performApiSearch. fold q.
      destruct q; [done|]. unfold Standalone.has_types. by rewrite Hloaded. }
  right.
  destruct (Standalone.GetAPISearch P q) as [[results|]|error] eqn:Hsearch.
  - destruct (decide (results = [])) as [->|Hres].
    + right. left. split_and!; [done|done|by right|]. subst r.
      unfold Standalone.performApiSearch. fold q. destruct q; [done|].
      unfold Standalone.has_types, Standalone.search.
      by rewrite Hloaded, Hsearch.
    + right. right. split_and!; [done..|].
      pose proof (standalone_found P params results Hq Hloaded Hsearch Hres)
        as Hfound.
      fold q r in Hfound. cbv zeta in Hfound.
      set (payload := base_payload q results (validate_limit (limit params)))
        in *.
      assert (Hlen : length (items payload)
                     = length (slice0 results (validate_limit (limit params)))).
      { subst payload. unfold base_payload. cbn [items].
        by rewrite length_fmap. }
      destruct (strict_ne_false (includeDetails params)).
      * exists results, (items payload ≫= standalone_item_trace P),
          (standalone_enriched P <$> items payload).
        split_and!; [done|done|done| | |].
        -- by rewrite length_fmap.
        -- apply standalone_item_searches.
        -- rewrite standalone_fetches, length_fmap.
           etrans; [apply length_filter|]. by rewrite length_fmap.
      * exists results, [], (items payload).
        split_and!; [done|done|done|done|done|simpl; lia].
  - right. left. split_and!; [done|done|by left|]. subst r.
    unfold Standalone.performApiSearch. fold q. destruct q; [done|].
    unfold Standalone.has_types, Standalone.search.
    by rewrite Hloaded, Hsearch.
  - left. split_and!; [done..|]. exists error. split; [done|]. subst r.
    unfold Standalone.performApiSearch. fold q. destruct q; [done|].
    unfold Standalone.has_types, Standalone.search.
    by rewrite Hloaded, Hsearch.
Qed.

(** Every way a complete invocation of the extension server can go. *)
Lemma extension_cases (env : Environment) (params : SearchParams)
    (schedule : list Callback) (r : Run Text) :
  performApiSearch env (Some params) schedule = Some r →
  let q := validate_query (query params) in
  (q = EmptyString ∧ r = ([], Normal (Plain NO_QUERY)))
  ∨ (q ≠ EmptyString
     ∧ ∃ error, clientReady env = Throw error
         ∧ r = ([ConsoleError "angelscript_searchApi MCP tool failed:" error],
                Normal (Plain TOOL_FAILED)))
  ∨ (q ≠ EmptyString ∧ clientReady env = Normal tt
     ∧ ∃ error, getAPISearch env q = Throw error
         ∧ r = ([CallSearch q;
                 ConsoleError "angelscript_searchApi MCP tool failed:" error],
                Normal (Plain TOOL_FAILED)))
  ∨ (q ≠ EmptyString ∧ clientReady env = Normal tt
     ∧ (getAPISearch env q = Normal None
        ∨ getAPISearch env q = Normal (Some []))
     ∧ r = ([CallSearch q], Normal (Plain (no_results q))))
  ∨ (q ≠ EmptyString ∧ clientReady env = Normal tt
     ∧ ∃ results t its',
         results ≠ []
         ∧ getAPISearch env q = Normal (Some results)
         ∧ r = (CallSearch q :: t,
                Normal (JSON_stringify
                  (with_items
                     (base_payload q results (validate_limit (limit params)))
                     its')))
         ∧ length its'
           = length (slice0 results (validate_limit (limit params)))
         ∧ searches t = []
         ∧ length (fetches t) ≤ length its').
Proof.
  intros Hrun q.
  destruct (decide (q = EmptyString)) as [Hq|Hq].
  { left. split; [done|]. unfold performApiSearch in Hrun. fold q in Hrun.
    rewrite Hq in Hrun. by apply quiescent_Some in Hrun as [_ ->]. }
  right.
  destruct (clientReady env) as [[]|error] eqn:Hready.
  2:{ left. split; [done|]. exists error. split; [done|].
      unfold performApiSearch in Hrun. fold q in Hrun.
      destruct q; [done|]. rewrite Hready in Hrun.
      by apply quiescent_Some in Hrun as [_ ->]. }
  right.
  destruct (getAPISearch env q) as [[results|]|error] eqn:Hsearch.
  - destruct (decide (results = [])) as [->|Hres].
    + right. left. split_and!; [done|done|by right|].
      unfold performApiSearch in Hrun. fold q in Hrun.
      destruct q; [done|]. rewrite Hready, Hsearch in Hrun.
      by apply quiescent_Some in Hrun as [_ ->].
    + right. right. split_and!; [done..|].
      destruct (extension_found env params results schedule r
                  Hq Hready Hsearch Hres Hrun) as (t & its' & -> & Hcase).
      fold q in Hcase |- *.
      set (payload := base_payload q results (validate_limit (limit params)))
        in *.
      assert (Hlen : length (items payload)
                     = length (slice0 results (validate_limit (limit params)))).
      { subst payload. unfold base_payload. cbn [items].
        by rewrite length_fmap. }
      exists results, t, its'. split_and!; [done|done|done|..].
      * destruct (strict_ne_false (includeDetails params)).
        -- destruct (enrich_spec _ _ _ _ Hcase) as (? & [= <-] & Hl & _).
           by rewrite Hl.
        -- by destruct Hcase as (_ & _ & ->).
      * destruct (strict_ne_false (includeDetails params)).
        -- by eapply enrich_searches.
        -- by destruct Hcase as (_ & -> & _).
      * destruct (strict_ne_false (includeDetails params)).
        -- destruct (enrich_spec _ _ _ _ Hcase)
             as (? & [= <-] & Hl & Hf & _).
           by rewrite Hf, length_fmap, Hl.
        -- destruct Hcase as (_ & -> & _). simpl. lia.
  - right. left. split_and!; [done|done|by left|].
    unfold performApiSearch in Hrun. fold q in Hrun.
    destruct q; [done|]. rewrite Hready, Hsearch in Hrun.
    by apply quiescent_Some in Hrun as [_ ->].
  - left. split_and!; [done..|]. exists error. split; [done|].
    unfold performApiSearch in Hrun. fold q in Hrun.
    destruct q; [done|]. rewrite Hready, Hsearch in Hrun.
    by apply quiescent_Some in Hrun as [_ ->].
Qed.

End Shapes.

(** ** What the handlers answer *)

Section Answers.
Import Extension SchedInv.

Lemma standalone_never_throws (P : Standalone.Provider)
    (params : SearchParams) :
  ∃ t txt, Standalone.performApiSearch P (Some params) = (t, Normal txt).
Proof.
  destruct (standalone_cases P params)
    as [(_ & ->)|[(_ & _ & ->)|[(_ & _ & ? & _ & ->)|[(_ & _ & _ & ->)|
        (_ & _ & ? & ? & ? & _ & _ & -> & _)]]]]; by eexists _, _.
Qed.

Lemma extension_never_throws (env : Environment) (params : SearchParams)
    (schedule : list Callback) (r : Run Text) :
  performApiSearch env (Some params) schedule = Some r →
  ∃ t txt, r = (t, Normal txt).
Proof.
  intros Hrun.
  destruct (extension_cases env params schedule r Hrun)
    as [(_ & ->)|[(_ & ? & _ & ->)|[(_ & _ & ? & _ & ->)|[(_ & _ & _ & ->)|
        (_ & _ & ? & ? & ? & _ & _ & -> & _)]]]]; by eexists _, _.
Qed.

(** Whatever the language server answers to the detail requests, some
    complete sequence of callbacks agreeing with it lets the invocation
    return. *)
Lemma extension_answers (env : Environment) (params : option SearchParams)
    (settlement : nat → Completion string) :
  ∃ schedule r,
    Forall (agrees settlement) schedule
    ∧ performApiSearch env params schedule = Some r.
Proof.
  destruct params as [params|]; [|by eexists [], _].
  unfold performApiSearch.
  destruct (validate_query (query params)) as [|c q]; [by eexists [], _|].
  destruct (clientReady env) as [[]|error]; [|by eexists [], _].
  destruct (getAPISearch env (String c q)) as [[[|m results]|]|error];
    try by eexists [], _.
  destruct (strict_ne_false (includeDetails params)); [|by eexists [], _].
  set (payload := base_payload _ _ _).
  destruct (enrich_total (items payload) settlement)
    as (schedule & t & its' & Hen & Hag).
  exists schedule. rewrite Hen. simpl. by eexists.
Qed.

(** X4: the answer to a call of [angelscript_searchApi] that carries an
    arguments object is never flagged as an error.  Whenever the handler
    of the standalone server returns, [isError] is unset and the text and
    the trace are those of [performApiSearch]; in particular a search that
    throws is delivered as an ordinary answer with the failure text.  The
    handler of the extension server does not throw on such a call, and it
    answers for every way the detail requests settle: some complete
    sequence of callbacks agreeing with the settlement exists.  A call
    without an arguments object is not answered: the handler throws a
    [TypeError] on [params.query] before any outside call. *)
Theorem known_tool_answer_is_never_flagged :
  (∀ P request params t res,
     name request = TOOL_NAME → arguments request = Some params →
     Standalone.callTool P request = (t, Normal res) →
     isError res = false
     ∧ Standalone.performApiSearch P (Some params) = (t, Normal (text res)))
  ∧ (∀ P request params error,
       let q := validate_query (query params) in
       name request = TOOL_NAME → arguments request = Some params →
       q ≠ EmptyString →
       Standalone.HasTypesFromUnreal P = true →
       Standalone.GetAPISearch P q = Throw error →
       Standalone.callTool P request
       = ([CallHasTypes; CallSearch q;
           ConsoleError "angelscript_searchApi tool failed:" error],
          Normal {| text := Plain Standalone.TOOL_FAILED;
                    isError := false |}))
  ∧ (∀ env request params schedule r,
       name request = TOOL_NAME → arguments request = Some params →
       callTool env request schedule = Some r →
       ∃ t txt,
         performApiSearch env (Some params) schedule = Some (t, Normal txt)
         ∧ r = (t, Normal {| text := txt; isError := false |}))
  ∧ (∀ env request settlement,
       name request = TOOL_NAME →
       ∃ schedule r,
         Forall (agrees settlement) schedule
         ∧ callTool env request schedule = Some r)
  ∧ (∀ P request,
       name request = TOOL_NAME → arguments request = None →
       Standalone.callTool P request = ([], Throw "TypeError"))
  ∧ (∀ env request,
       name request = TOOL_NAME → arguments request = None →
       callTool env request [] = Some ([], Throw "TypeError")
       ∧ ∀ schedule r,
           callTool env request schedule = Some r →
           schedule = [] ∧ r = ([], Throw "TypeError")).
Proof.
  split_and!.
  - intros P request params t res Hname Hargs.
    unfold Standalone.callTool. rewrite Hname, Hargs, String.eqb_refl.
    destruct (Standalone.performApiSearch P (Some params))
      as [t0 [txt|error]]; simpl; [|done].
    rewrite app_nil_r. by intros [= <- <-].
  - intros P request params error q Hname Hargs Hq Hloaded Hsearch.
    unfold Standalone.callTool. rewrite Hname, Hargs, String.eqb_refl.
    unfold Standalone.performApiSearch. fold q. destruct q; [done|].
    unfold Standalone.has_types, Standalone.search.
    by rewrite Hloaded, Hsearch.
  - intros env request params schedule r Hname Hargs.
    unfold callTool. rewrite Hname, Hargs, String.eqb_refl.
    destruct (performApiSearch env (Some params) schedule) as [r0|] eqn:Hrun;
      [|done].
    destruct (extension_never_throws env params schedule r0 Hrun)
      as (t & txt & ->).
    simpl. intros [= <-]. exists t, txt. by rewrite app_nil_r.
  - intros env request settlement Hname.
    destruct (extension_answers env (arguments request) settlement)
      as (schedule & r & Hag & Hrun).
    exists schedule. unfold callTool. rewrite Hname, String.eqb_refl, Hrun.
    simpl. by eexists.
  - intros P request Hname Hargs.
    unfold Standalone.callTool. by rewrite Hname, Hargs, String.eqb_refl.
  - intros env request Hname Hargs.
    unfold callTool. rewrite Hname, Hargs, String.eqb_refl.
    split; [done|]. intros schedule r.
    destruct schedule; [|done]. simpl. by intros [= <-].
Qed.

Lemma known_tool_answer_is_never_flagged_witness :
  Standalone.callTool Samples.broken_provider
    {| name := "angelscript_searchApi";
       arguments := Some (Samples.params VUndefined VUndefined) |}
  = ([CallHasTypes; CallSearch "GetActor";
      ConsoleError "angelscript_searchApi tool failed:" "database locked"],
     Normal {| text := Plain Standalone.TOOL_FAILED; isError := false |})
  ∧ Standalone.callTool Samples.broken_provider
      {| name := "angelscript_searchApi"; arguments := None |}
    = ([], Throw "TypeError")
  ∧ (∃ schedule r,
       Forall (agrees Samples.settlement) schedule
       ∧ callTool (Samples.environment (Samples.matches 3))
           {| name := "angelscript_searchApi";
              arguments := Some (Samples.params VUndefined VUndefined) |}
           schedule = Some r
       ∧ ∃ t txt, r = (t, Normal {| text := txt; isError := false |})).
Proof.
  destruct known_tool_answer_is_never_flagged
    as (_ & Hf & He & Ha & Hn & _).
  split_and!.
  - by apply (Hf Samples.broken_provider
                {| name := "angelscript_searchApi";
                   arguments := Some (Samples.params VUndefined VUndefined) |}
                (Samples.params VUndefined VUndefined)).
  - by apply Hn.
  - destruct (Ha (Samples.environment (Samples.matches 3))
                {| name := "angelscript_searchApi";
                   arguments := Some (Samples.params VUndefined VUndefined) |}
                Samples.settlement eq_refl) as (schedule & r & Hag & Hrun).
    exists schedule, r. split; [exact Hag|]. split; [exact Hrun|].
    destruct (He (Samples.environment (Samples.matches 3))
                {| name := "angelscript_searchApi";
                   arguments := Some (Samples.params VUndefined VUndefined) |}
                (Samples.params VUndefined VUndefined) schedule r
                eq_refl eq_refl Hrun) as (t & txt & _ & Hr).
    by exists t, txt.
Defined.

(** X5: the text tells what happened.  In the standalone server the
    [No query provided] text is returned only for a query that is empty
    after trimming, the [type database is empty] text only when no types
    are loaded, a [No ... results] text only when the search returned null
    or an empty list, and a payload only when it returned at least one
    match; then [total] is their number.  The failure text is returned
    only from inside the guarded block: the query was not empty, types were
    loaded, the search was called and an error was logged.  The same holds
    in the extension server, where the failure text means that the
    readiness promise was rejected or that the search request was sent,
    and that an error was logged. *)
Theorem text_identifies_cause :
  (∀ P params,
     let q := validate_query (query params) in
     let r := Standalone.performApiSearch P (Some params) in
     (outcome r = Normal (Plain NO_QUERY) → q = EmptyString)
     ∧ (outcome r = Normal (Plain Standalone.DATABASE_EMPTY) →
        q ≠ EmptyString ∧ Standalone.HasTypesFromUnreal P = false)
     ∧ (outcome r = Normal (Plain Standalone.TOOL_FAILED) →
        q ≠ EmptyString
        ∧ Standalone.HasTypesFromUnreal P = true
        ∧ searches (trace r) = [q]
        ∧ ∃ error,
            ConsoleError "angelscript_searchApi tool failed:" error
            ∈ trace r)
     ∧ (outcome r = Normal (Plain (no_results q)) →
        q ≠ EmptyString
        ∧ (Standalone.GetAPISearch P q = Normal None
           ∨ Standalone.GetAPISearch P q = Normal (Some [])))
     ∧ (∀ p, outcome r = Normal (JSON_stringify p) →
          q ≠ EmptyString
          ∧ ∃ results, results ≠ []
              ∧ Standalone.GetAPISearch P q = Normal (Some results)
              ∧ total p = length results ∧ payload_query p = q))
  ∧ (∀ env params schedule r,
       performApiSearch env (Some params) schedule = Some r →
       let q := validate_query (query params) in
       (outcome r = Normal (Plain NO_QUERY) → q = EmptyString)
       ∧ (outcome r = Normal (Plain TOOL_FAILED) →
          q ≠ EmptyString
          ∧ ((∃ error, clientReady env = Throw error)
             ∨ searches (trace r) = [q])
          ∧ ∃ error,
              ConsoleError "angelscript_searchApi MCP tool failed:" error
              ∈ trace r)
       ∧ (outcome r = Normal (Plain (no_results q)) →
          q ≠ EmptyString
          ∧ (getAPISearch env q = Normal None
             ∨ getAPISearch env q = Normal (Some [])))
       ∧ (∀ p, outcome r = Normal (JSON_stringify p) →
            q ≠ EmptyString
            ∧ ∃ results, results ≠ []
                ∧ getAPISearch env q = Normal (Some results)
                ∧ total p = length results ∧ payload_query p = q)).
Proof.
  split.
  - intros P params q r.
    destruct (standalone_cases P params)
      as [(Hq & Hr)|[(Hq & Hl & Hr)|[(Hq & Hl & e & He & Hr)|
          [(Hq & Hl & Hs & Hr)|
           (Hq & Hl & res & t & its' & Hn & Hs & Hr & _)]]]];
      fold q r in Hr, Hq; rewrite Hr; cbn [outcome trace fst snd];
      (split_and!; [intros H|intros H|intros H|intros H|intros p H]);
      try discriminate H; try done; try by eauto.
    + split_and!; [done..|]. exists e.
      rewrite !elem_of_cons. tauto.
    + injection H as <-. split; [done|]. by exists res.
  - intros env params schedule r Hrun q.
    destruct (extension_cases env params schedule r Hrun)
      as [(Hq & Hr)|[(Hq & e & He & Hr)|[(Hq & Hl & e & He & Hr)|
          [(Hq & Hl & Hs & Hr)|
           (Hq & Hl & res & t & its' & Hn & Hs & Hr & _)]]]];
      fold q in Hr, Hq; rewrite Hr; cbn [outcome trace fst snd];
      (split_and!; [intros H|intros H|intros H|intros p H]);
      try discriminate H; try done; try by eauto 6.
    + split_and!; [done|by eauto|]. exists e.
      rewrite !elem_of_cons. tauto.
    + split_and!; [done|by right|]. exists e.
      rewrite !elem_of_cons. tauto.
    + injection H as <-. split; [done|]. by exists res.
Qed.

End Answers.

(** ** Bounds that hold for every argument *)

Section Bounds.
Import Extension SchedInv.

Lemma validate_limit_forms (raw : JsValue) :
  validate_limit raw = NaN ∨ in_range (validate_limit raw).
Proof.
  destruct raw as [| | |[| | |q]| | |]; try (right; by exists 500%Z).
  - by left.
  - right. by exists 1000%Z.
  - right. by exists 1%Z.
  - right. by apply validate_limit_in_range.
Qed.

(** Whatever the raw limit, the slice holds at most 1000 matches. *)
Lemma slice0_validated_length {A} (l : list A) (raw : JsValue) :
  length (slice0 l (validate_limit raw)) ≤ Nat.min (length l) 1000.
Proof.
  destruct (validate_limit_forms raw) as [->|(z & -> & Hz)].
  - rewrite slice0_NaN. simpl. lia.
  - rewrite slice0_int by lia. rewrite length_take. lia.
Qed.

Lemma base_payload_truncated (q : string) (results : list RawMatch)
    (lim : JsNumber) :
  let p := base_payload q results lim in
  returned p = length (items p)
  ∧ total p = length results
  ∧ (truncated p = true ↔ returned p < total p).
Proof.
  unfold base_payload. cbn [returned items total truncated].
  rewrite length_fmap, bool_decide_eq_true. done.
Qed.

(** X6: for every argument object (a negative, fractional, infinite or
    [NaN] limit included) a returned payload has [total] at least 1,
    [returned] equal to the number of its items and at most
    [min(total, 1000)], and [truncated] exactly when [returned < total];
    the invocation makes at most one [search] call and at most [returned]
    [fetchDetail] calls, so never more than 1000. *)
Theorem payload_and_calls_are_bounded :
  (∀ P params,
     let r := Standalone.performApiSearch P (Some params) in
     length (searches (trace r)) ≤ 1
     ∧ length (fetches (trace r)) ≤ 1000
     ∧ ∀ p, outcome r = Normal (JSON_stringify p) →
         1 ≤ total p
         ∧ returned p = length (items p)
         ∧ returned p ≤ Nat.min (total p) 1000
         ∧ (truncated p = true ↔ returned p < total p)
         ∧ length (fetches (trace r)) ≤ returned p)
  ∧ (∀ env params schedule r,
       performApiSearch env (Some params) schedule = Some r →
       length (searches (trace r)) ≤ 1
       ∧ length (fetches (trace r)) ≤ 1000
       ∧ ∀ p, outcome r = Normal (JSON_stringify p) →
           1 ≤ total p
           ∧ returned p = length (items p)
           ∧ returned p ≤ Nat.min (total p) 1000
           ∧ (truncated p = true ↔ returned p < total p)
           ∧ length (fetches (trace r)) ≤ returned p).
Proof.
  assert (Hpayload : ∀ q results raw (its' : list SearchResultItem) p,
    results ≠ [] →
    length its' = length (slice0 results (validate_limit raw)) →
    p = with_items (base_payload q results (validate_limit raw)) its' →
    1 ≤ total p ∧ returned p = length (items p)
    ∧ returned p ≤ Nat.min (total p) 1000
    ∧ (truncated p = true ↔ returned p < total p)).
  { intros q results raw its' p Hne Hlen ->.
    destruct (base_payload_truncated q results (validate_limit raw))
      as (Hret & Htot & Htr).
    pose proof (slice0_validated_length results raw) as Hb.
    cbn [with_items total returned truncated items].
    assert (Hr : returned (base_payload q results (validate_limit raw))
                 = length (slice0 results (validate_limit raw))).
    { unfold base_payload. by cbn [returned]. }
    rewrite Hr in *. rewrite Htot in *.
    destruct results; [done|]. simpl in *. split_and!; [lia|lia|lia|done]. }
  split.
  - intros P params r.
    destruct (standalone_cases P params)
      as [(Hq & Hr)|[(Hq & Hl & Hr)|[(Hq & Hl & e & He & Hr)|
          [(Hq & Hl & Hs & Hr)|
           (Hq & Hl & res & t & its' & Hn & Hs & Hr & Hlen & Hse & Hf)]]]];
      fold r in Hr; rewrite Hr; cbn [trace outcome fst snd];
      try (split_and!; [simpl; lia|simpl; lia|by intros p [= ?]]).
    change (searches (CallHasTypes :: CallSearch (validate_query (query params)) :: t))
      with (validate_query (query params) :: searches t).
    change (fetches (CallHasTypes :: CallSearch (validate_query (query params)) :: t))
      with (fetches t).
    pose proof (slice0_validated_length res (limit params)) as Hb.
    rewrite Hse. split_and!; [simpl; lia|lia|].
    intros p [= <-].
    destruct (Hpayload (validate_query (query params)) res (limit params)
                its' _ Hn Hlen eq_refl) as (H1 & H2 & H3 & H4).
    split_and!; [done..|]. rewrite H2. by cbn [with_items items].
  - intros env params schedule r Hrun.
    destruct (extension_cases env params schedule r Hrun)
      as [(Hq & Hr)|[(Hq & e & He & Hr)|[(Hq & Hl & e & He & Hr)|
          [(Hq & Hl & Hs & Hr)|
           (Hq & Hl & res & t & its' & Hn & Hs & Hr & Hlen & Hse & Hf)]]]];
      rewrite Hr; cbn [trace outcome fst snd];
      try (split_and!; [simpl; lia|simpl; lia|by intros p [= ?]]).
    change (searches (CallSearch (validate_query (query params)) :: t))
      with (validate_query (query params) :: searches t).
    change (fetches (CallSearch (validate_query (query params)) :: t))
      with (fetches t).
    pose proof (slice0_validated_length res (limit params)) as Hb.
    rewrite Hse. split_and!; [simpl; lia|lia|].
    intros p [= <-].
    destruct (Hpayload (validate_query (query params)) res (limit params)
                its' _ Hn Hlen eq_refl) as (H1 & H2 & H3 & H4).
    split_and!; [done..|]. rewrite H2. by cbn [with_items items].
Qed.

End Bounds.

(** ** The query the provider sees *)

Section Query.
Import Extension SchedInv.

Lemma validate_query_trimmed (raw : JsValue) : trimmed (validate_query raw).
Proof. destruct raw; try done. apply trim_trimmed. Qed.

(** X7: the only query either server ever hands to the provider's search
    is the trimmed query argument: it is not empty and neither begins nor
    ends with white space.  The query echoed in a payload is the same
    string. *)
Theorem provider_query_is_trimmed :
  (∀ P params q,
     q ∈ searches (trace (Standalone.performApiSearch P (Some params))) →
     q = validate_query (query params) ∧ q ≠ EmptyString ∧ trimmed q)
  ∧ (∀ env params schedule r q,
       performApiSearch env (Some params) schedule = Some r →
       q ∈ searches (trace r) →
       q = validate_query (query params) ∧ q ≠ EmptyString ∧ trimmed q)
  ∧ (∀ P params p,
       outcome (Standalone.performApiSearch P (Some params))
       = Normal (JSON_stringify p) →
       payload_query p = validate_query (query params)
       ∧ trimmed (payload_query p))
  ∧ (∀ env params schedule r p,
       performApiSearch env (Some params) schedule = Some r →
       outcome r = Normal (JSON_stringify p) →
       payload_query p = validate_query (query params)
       ∧ trimmed (payload_query p)).
Proof.
  split_and!.
  - intros P params q.
    destruct (standalone_cases P params)
      as [(Hq & Hr)|[(Hq & Hl & Hr)|[(Hq & Hl & e & He & Hr)|
          [(Hq & Hl & Hs & Hr)|
           (Hq & Hl & res & t & its' & Hn & Hs & Hr & Hlen & Hse & Hf)]]]];
      rewrite Hr; cbn [trace fst].
    + by intros ?%elem_of_nil.
    + by intros ?%elem_of_nil.
    + intros ->%list_elem_of_singleton.
      split_and!; [done..|apply validate_query_trimmed].
    + intros ->%list_elem_of_singleton.
      split_and!; [done..|apply validate_query_trimmed].
    + change (searches (CallHasTypes
                          :: CallSearch (validate_query (query params)) :: t))
        with (validate_query (query params) :: searches t).
      rewrite Hse. intros ->%list_elem_of_singleton.
      split_and!; [done..|apply validate_query_trimmed].
  - intros env params schedule r q Hrun.
    destruct (extension_cases env params schedule r Hrun)
      as [(Hq & Hr)|[(Hq & e & He & Hr)|[(Hq & Hl & e & He & Hr)|
          [(Hq & Hl & Hs & Hr)|
           (Hq & Hl & res & t & its' & Hn & Hs & Hr & Hlen & Hse & Hf)]]]];
      rewrite Hr; cbn [trace fst].
    + by intros ?%elem_of_nil.
    + by intros ?%elem_of_nil.
    + intros ->%list_elem_of_singleton.
      split_and!; [done..|apply validate_query_trimmed].
    + intros ->%list_elem_of_singleton.
      split_and!; [done..|apply validate_query_trimmed].
    + change (searches (CallSearch (validate_query (query params)) :: t))
        with (validate_query (query params) :: searches t).
      rewrite Hse. intros ->%list_elem_of_singleton.
      split_and!; [done..|apply validate_query_trimmed].
  - intros P params p.
    destruct (standalone_cases P params)
      as [(Hq & Hr)|[(Hq & Hl & Hr)|[(Hq & Hl & e & He & Hr)|
          [(Hq & Hl & Hs & Hr)|
           (Hq & Hl & res & t & its' & Hn & Hs & Hr & _)]]]];
      rewrite Hr; cbn [outcome snd]; intros H; try discriminate H.
    injection H as <-. split; [done|apply validate_query_trimmed].
  - intros env params schedule r p Hrun.
    destruct (extension_cases env params schedule r Hrun)
      as [(Hq & Hr)|[(Hq & e & He & Hr)|[(Hq & Hl & e & He & Hr)|
          [(Hq & Hl & Hs & Hr)|
           (Hq & Hl & res & t & its' & Hn & Hs & Hr & _)]]]];
      rewrite Hr; cbn [outcome snd]; intros H; try discriminate H.
    injection H as <-. split; [done|apply validate_query_trimmed].
Qed.

End Query.

(** ** The window, request by request *)

Section Window.
Import Extension SchedInv.
Variable its : list SearchResultItem.

(** The first call of [startNext] sends [min(N, 10)] requests. *)
Lemma first_burst :
  let st := startNext its initial in
  nextIndex st = Nat.min (length its) 10
  ∧ pending st = seq 0 (Nat.min (length its) 10)
  ∧ activeCount st = Z.of_nat (Nat.min (length its) 10).
Proof.
  destruct (startNext_spec its initial (initial_core its))
    as (Hcore & _ & _ & _ & _ & Hdelta & Hp & _ & Hexit).
  apply can_start_false in Hexit.
  pose proof (core_next _ _ Hcore) as Hn.
  pose proof (core_bound _ _ Hcore) as Hb.
  unfold CONCURRENCY_LIMIT in *.
  cbn [initial nextIndex activeCount pending] in Hdelta, Hp.
  cbv zeta.
  assert (Hnext : nextIndex (startNext its initial)
                  = Nat.min (length its) 10) by lia.
  split_and!; [done| |lia].
  rewrite Hp, Nat.sub_0_r, Hnext. done.
Qed.

(** A [finally] callback sends exactly one request if an item is still to
    be requested, and none otherwise. *)
Lemma finally_refills_one (i : nat) (st : Sched) :
  Inv its st → i ∈ settled st →
  let st' := finally its i st in
  if decide (nextIndex st < length its)
  then nextIndex st' = S (nextIndex st) ∧ activeCount st' = 10%Z
       ∧ pending st' = pending st ++ [nextIndex st]
  else nextIndex st' = nextIndex st
       ∧ activeCount st' = (activeCount st - 1)%Z
       ∧ pending st' = pending st.
Proof.
  intros [Hcore Hfull Hres] Hin.
  pose proof (release_core its i st Hcore Hin) as Hcore1.
  pose proof (core_bound _ _ Hcore) as Hb.
  pose proof (core_next _ _ Hcore) as Hn.
  pose proof (core_active _ _ Hcore1) as Ha1.
  unfold finally. set (st1 := release i st) in *.
  assert (E1 : nextIndex st1 = nextIndex st) by done.
  assert (E2 : activeCount st1 = (activeCount st - 1)%Z) by done.
  assert (E3 : pending st1 = pending st) by done.
  unfold CONCURRENCY_LIMIT in *. cbv zeta.
  destruct (bool_decide (length its ≤ nextIndex st1)
            && bool_decide (activeCount st1 = 0%Z)) eqn:Hcond.
  - apply andb_true_iff in Hcond
      as [Hc1%bool_decide_eq_true Hc2%bool_decide_eq_true].
    rewrite decide_False by lia. done.
  - apply andb_false_iff in Hcond.
    rewrite !bool_decide_eq_false in Hcond.
    destruct (startNext_spec its st1 Hcore1)
      as (Hcore' & _ & _ & _ & Hle & Hdelta & Hp & _ & Hexit).
    apply can_start_false in Hexit.
    pose proof (core_bound _ _ Hcore') as Hb'.
    pose proof (core_next _ _ Hcore') as Hn'.
    unfold CONCURRENCY_LIMIT in *.
    clearbody st1.
    destruct (decide (nextIndex st < length its)) as [Hlt|Hge].
    + specialize (Hfull Hlt).
      assert (Hnext : nextIndex (startNext its st1) = S (nextIndex st))
        by lia.
      split_and!; [done|lia|].
      rewrite Hp, Hnext, E1, E3.
      replace (S (nextIndex st) - nextIndex st) with 1 by lia. done.
    + assert (Hnext : nextIndex (startNext its st1) = nextIndex st) by lia.
      split_and!; [done|lia|].
      rewrite Hp, Hnext, E1, E3, Nat.sub_diag. simpl. by rewrite app_nil_r.
Qed.

End Window.

Section WindowProperty.
Import Extension SchedInv.

(** X8: the window is refilled request by request.  The first call of
    [startNext] sends the requests of the first [min(N, 10)] items, in
    order.  In every reachable state a [then] or [catch] callback sends
    nothing: it leaves [nextIndex] and [activeCount] alone, takes its own
    request out of those in flight and adds none; and a [finally] callback
    sends exactly the request of the item at [nextIndex] when an item is
    left (the window is full again), and sends nothing and lowers
    [activeCount] by one when none is left. *)
Theorem window_refills_one_by_one (its : list SearchResultItem) :
  (nextIndex (startNext its initial) = Nat.min (length its) 10
   ∧ pending (startNext its initial) = seq 0 (Nat.min (length its) 10)
   ∧ fetches (effects (startNext its initial)) = data <$> take 10 its)
  ∧ ∀ schedule st,
      run its (startNext its initial) schedule = Some st →
      (∀ cb st',
         callback its st cb = Some st' →
         match cb with
         | Then i _ | Catch i _ =>
             nextIndex st' = nextIndex st
             ∧ activeCount st' = activeCount st
             ∧ pending st' = without i (pending st)
             ∧ fetches (effects st') = fetches (effects st)
         | Finally _ => True
         end)
      ∧ ∀ i, i ∈ settled st →
          let st' := finally its i st in
          if decide (nextIndex st < length its)
          then nextIndex st' = S (nextIndex st) ∧ activeCount st' = 10%Z
               ∧ pending st' = pending st ++ [nextIndex st]
               ∧ ∃ item, its !! nextIndex st = Some item
                   ∧ fetches (effects st')
                     = fetches (effects st) ++ [data item]
          else nextIndex st' = nextIndex st
               ∧ activeCount st' = (activeCount st - 1)%Z
               ∧ pending st' = pending st
               ∧ fetches (effects st') = fetches (effects st).
Proof.
  split.
  - destruct (first_burst its) as (Hn & Hp & _). split_and!; [done..|].
    destruct (startNext_spec its initial (initial_core its)) as (Hcore & _).
    rewrite (core_fetches _ _ Hcore), Hn. f_equal.
    destruct (decide (length its ≤ 10)) as [Hle|Hgt].
    + rewrite Nat.min_l by done. by rewrite !take_ge by lia.
    + by rewrite Nat.min_r by lia.
  - intros schedule st Hrun. split.
    + intros [i details|i error|i] st' Hcb; [| |done]; simpl in Hcb.
      * case_bool_decide; [|done]. injection Hcb as <-.
        unfold record_entry. cbn [nextIndex activeCount pending effects].
        by rewrite app_nil_r.
      * case_bool_decide; [|done].
        destruct (its !! i) as [item|]; [|done]. injection Hcb as <-.
        unfold record_entry. cbn [nextIndex activeCount pending effects].
        by rewrite fetches_app, app_nil_r.
    + intros i Hin.
      destruct (decide (0 < length its)) as [Hpos|Hzero].
      * pose proof (run_inv its schedule _ st (initial_inv its Hpos) Hrun)
          as Hinv.
        pose proof (finally_refills_one its i st Hinv Hin) as Hone.
        pose proof (core_fetches _ _ (inv_core _ _ Hinv)) as Hf.
        pose proof (core_fetches _ _
                      (inv_core _ _ (finally_inv its i st Hinv Hin))) as Hf'.
        cbv zeta in *.
        destruct (decide (nextIndex st < length its)) as [Hlt|Hge].
        -- destruct Hone as (Hn & Ha & Hp). split_and!; [done..|].
           destruct (lookup_lt_is_Some_2 its _ Hlt) as [item Hitem].
           exists item. split; [done|].
           by rewrite Hf', Hn, Hf, (take_S_r _ _ _ Hitem), fmap_app.
        -- destruct Hone as (Hn & Ha & Hp). split_and!; [done..|].
           by rewrite Hf', Hn, Hf.
      * assert (its = []) as -> by (apply length_zero_iff_nil; lia).
        apply run_empty in Hrun as [_ ->]. by apply elem_of_nil in Hin.
Qed.

Lemma window_refills_one_by_one_witness :
  nextIndex (startNext (Samples.items 25) initial) = 10
  ∧ fetches (effects (record_entry 3 (Some "doc"%string) []
                        (startNext (Samples.items 25) initial)))
    = fetches (effects (startNext (Samples.items 25) initial))
  ∧ nextIndex (finally (Samples.items 25) 3
                 (record_entry 3 (Some "doc"%string) []
                    (startNext (Samples.items 25) initial))) = 11.
Proof.
  destruct (window_refills_one_by_one (Samples.items 25)) as [[H0 _] H].
  split; [exact H0|]. split.
  - destruct (H [] (startNext (Samples.items 25) initial) eq_refl)
      as [Hc _].
    by destruct (Hc (Then 3 "doc"%string)
                   (record_entry 3 (Some "doc"%string) []
                      (startNext (Samples.items 25) initial)) eq_refl)
      as (_ & _ & _ & Hsame).
  - destruct (H [Then 3 "doc"%string]
                (record_entry 3 (Some "doc"%string) []
                   (startNext (Samples.items 25) initial)) eq_refl)
      as [_ Hf].
    specialize (Hf 3). cbv zeta in Hf.
    rewrite decide_True in Hf by (vm_compute; lia).
    destruct Hf as (Hn & _).
    { unfold record_entry. cbn [settled]. apply elem_of_app. right.
      by apply list_elem_of_singleton. }
    rewrite Hn. reflexivity.
Defined.

End WindowProperty.

(** ** Starting and stopping *)

Section LifecycleProperties.
Import Lifecycle.

Lemma count_app (f : Action → bool) (a b : list Action) :
  count f (a ++ b) = count f a + count f b.
Proof. unfold count. by rewrite filter_app, length_app. Qed.

(** One call: a successful stop uses up the transport a start has set, and
    [server.close] is called only by a stop, once. *)
Lemma call_accounting (c : Call) (s s' : Server) (acts : list Action)
    (o : Completion unit) :
  call c s = (s', acts, o) →
  count is_stopped acts + is_set s' ≤ count is_connect acts + is_set s
  ∧ count is_close acts
    ≤ count is_stopped acts + (if fails_to_close c then 1 else 0).
Proof.
  destruct s as [tr].
  destruct c as [[[]|e]|[[]|e]], tr as [?|];
    intros [= <- <- <-]; vm_compute; lia.
Qed.

Lemma calls_accounting (cs : list Call) (s s' : Server)
    (acts : list Action) :
  calls cs s = (s', acts) →
  count is_stopped acts + is_set s' ≤ count is_connect acts + is_set s
  ∧ count is_close acts
    ≤ count is_stopped acts + length (filter (λ c, fails_to_close c = true) cs).
Proof.
  revert s s' acts. induction cs as [|c cs IH]; intros s s' acts;
    cbn [calls].
  - intros [= <- <-]. change (count is_stopped []) with 0.
    change (count is_connect []) with 0. change (count is_close []) with 0.
    simpl. lia.
  - destruct (call c s) as [[s1 a1] o] eqn:Hc.
    destruct (calls cs s1) as [s2 a2] eqn:Hcs. intros [= <- <-].
    destruct (call_accounting _ _ _ _ _ Hc) as (H1 & H2).
    destruct (IH _ _ _ Hcs) as (H4 & H5).
    rewrite !count_app, filter_cons.
    destruct (fails_to_close c) eqn:Hf.
    + rewrite decide_True by done. cbn [length]. lia.
    + rewrite decide_False by done. lia.
Qed.

(** X9: [stop] closes the server only while a transport is set.  On a
    server that was never started it does nothing; over any sequence of
    [start] and [stop] calls the stops that succeed never outnumber the
    starts, and [server.close] is called at most once per successful stop
    plus once per failed one; after a successful stop the transport is
    null, so stopping again calls nothing; and a start whose connection
    fails still leaves the transport set, so the next stop calls
    [server.close]. *)
Theorem stop_closes_only_a_started_server :
  (∀ close, stop close constructed = (constructed, [], Normal tt))
  ∧ (∀ cs s acts,
       calls cs constructed = (s, acts) →
       count is_stopped acts + is_set s ≤ count is_connect acts
       ∧ count is_close acts
         ≤ count is_stopped acts
           + length (filter (λ c, fails_to_close c = true) cs))
  ∧ (∀ s s' acts close,
       stop (Normal tt) s = (s', acts, Normal tt) →
       transport s' = None ∧ stop close s' = (s', [], Normal tt))
  ∧ (∀ s error close,
       let '(s1, acts1, _) := start (Throw error) s in
       acts1 = [Connect]
       ∧ ∃ s2 acts2 o, stop close s1 = (s2, Close :: acts2, o)).
Proof.
  split_and!.
  - done.
  - intros cs s acts Hcalls.
    destruct (calls_accounting _ _ _ _ Hcalls) as [H1 H2].
    split; [|done]. change (is_set constructed) with 0 in H1. lia.
  - intros s s' acts close. unfold stop.
    destruct (transport s) eqn:Ht; intros [= <- _]; [done|].
    by rewrite Ht.
  - intros s error close. simpl. split; [done|].
    destruct close as [[]|e]; by eexists _, _, _.
Qed.

Lemma stop_closes_only_a_started_server_witness :
  calls [Stop (Normal tt); Start (Normal tt); Stop (Normal tt);
         Stop (Normal tt)] constructed
  = (constructed,
     [Connect;
      Log "Angelscript MCP Server started (extension-integrated)";
      Log "Available tools: angelscript_searchApi";
      Close; Log "Angelscript MCP Server stopped"])
  ∧ count is_stopped
      [Connect;
       Log "Angelscript MCP Server started (extension-integrated)";
       Log "Available tools: angelscript_searchApi";
       Close; Log "Angelscript MCP Server stopped"]
    + is_set constructed
    ≤ count is_connect
        [Connect;
         Log "Angelscript MCP Server started (extension-integrated)";
         Log "Available tools: angelscript_searchApi";
         Close; Log "Angelscript MCP Server stopped"].
Proof.
  destruct stop_closes_only_a_started_server as (_ & H & _).
  split; [reflexivity|].
  exact (proj1 (H [Stop (Normal tt); Start (Normal tt); Stop (Normal tt);
                   Stop (Normal tt)] _ _ eq_refl)).
Defined.

End LifecycleProperties.

(** ** The advertised tool *)

Section Descriptor.
Import Extension.

Lemma Qfloor_in_range (q : Q) :
  (1 <= q)%Q → (q <= 1000)%Q → (1 ≤ Qfloor q ≤ 1000)%Z.
Proof.
  intros Hlo Hhi. split.
  - change 1%Z with (Qfloor 1). by apply Qfloor_resp_le.
  - change 1000%Z with (Qfloor 1000). by apply Qfloor_resp_le.
Qed.

(** X10: what [ListTools] advertises agrees with what the handlers do.
    The one tool listed carries the name the dispatcher answers to, so a
    call under the advertised name is never answered as an unknown tool;
    the advertised default of [limit] is the limit used when none is
    given; every limit between the advertised minimum and maximum is used
    as its floor, which lies in the same bounds (an integer limit is used
    as it is); and the advertised default of [includeDetails] is what an
    absent flag means. *)
Theorem advertised_schema_matches_validation :
  elements_of (member "tools" listTools) = [ANGELSCRIPT_SEARCH_TOOL]
  ∧ ∀ tool,
      tool ∈ elements_of (member "tools" listTools) →
      let schema := member "properties" (member "inputSchema" tool) in
      (∀ n, member "name" tool = VString n →
         (∀ P args res,
            outcome (Standalone.callTool P {| name := n; arguments := args |})
            = Normal res → isError res = false)
         ∧ ∀ env args schedule r res,
             callTool env {| name := n; arguments := args |} schedule = Some r →
             outcome r = Normal res → isError res = false)
      ∧ member "default" (member "limit" schema)
        = VNumber (validate_limit VUndefined)
      ∧ (∀ lo hi q,
           member "minimum" (member "limit" schema) = VNumber (Fin lo) →
           member "maximum" (member "limit" schema) = VNumber (Fin hi) →
           (lo <= q)%Q → (q <= hi)%Q →
           validate_limit (VNumber (Fin q)) = Fin (inject_Z (Qfloor q))
           ∧ (lo <= inject_Z (Qfloor q))%Q ∧ (inject_Z (Qfloor q) <= hi)%Q)
      ∧ member "default" (member "includeDetails" schema)
        = VBool (strict_ne_false VUndefined).
Proof.
  split; [done|].
  intros tool ->%list_elem_of_singleton. cbv zeta. split_and!.
  - intros n [= <-]. split.
    + intros P [params|] res; unfold Standalone.callTool;
        cbn [name arguments]; rewrite String.eqb_refl.
      * destruct (standalone_never_throws P params) as (t & txt & ->).
        simpl. by intros [= <-].
      * done.
    + intros env [params|] schedule r res; unfold callTool;
        cbn [name arguments]; rewrite String.eqb_refl.
      * destruct (performApiSearch env (Some params) schedule)
          as [r0|] eqn:Hrun; [|done].
        destruct (extension_never_throws env params schedule r0 Hrun)
          as (t & txt & ->).
        simpl. intros [= <-]. simpl. by intros [= <-].
      * destruct schedule; [|done]. simpl. by intros [= <-].
  - done.
  - intros lo hi q [= <-] [= <-] Hlo Hhi.
    pose proof (Qfloor_in_range q Hlo Hhi) as [H1 H2].
    rewrite validate_limit_finite.
    replace (clamp (Qfloor q)) with (Qfloor q) by (unfold clamp; lia).
    split_and!; [done| |].
    + change 1%Q with (inject_Z 1). rewrite <- Zle_Qle. done.
    + change 1000%Q with (inject_Z 1000). rewrite <- Zle_Qle. done.
  - done.
Qed.

Lemma advertised_schema_matches_validation_witness :
  validate_limit (VNumber (Fin (201 # 2))) = Fin 100
  ∧ member "default"
      (member "limit"
         (member "properties" (member "inputSchema" ANGELSCRIPT_SEARCH_TOOL)))
    = VNumber (validate_limit VUndefined).
Proof.
  destruct advertised_schema_matches_validation as [_ H].
  destruct (H ANGELSCRIPT_SEARCH_TOOL) as (_ & Hd & Hrange & _).
  { by left. }
  split; [|exact Hd].
  by destruct (Hrange 1%Q 1000%Q (201 # 2)%Q eq_refl eq_refl) as (-> & _).
Defined.

End Descriptor.

(** ** The two servers side by side *)

Section Parity.
Import Extension SchedInv.

(** X11: the two servers return the same text for the same result list
    when the standalone server has its types loaded, every returned match
    carries a truthy token, no detail lookup answers the empty string, and
    the language server settles the request of each index as the
    in-process lookup of that item's token completes.  (Without the last
    three conditions they differ: the standalone server skips an item
    without a token and drops an empty answer.) *)
Theorem servers_agree_on_found_results (P : Standalone.Provider)
    (env : Environment) (params : SearchParams) (results : list RawMatch)
    (schedule : list Callback) (r : Run Text) :
  let q := validate_query (query params) in
  let its := items (base_payload q results (validate_limit (limit params))) in
  q ≠ EmptyString →
  Standalone.HasTypesFromUnreal P = true →
  clientReady env = Normal tt →
  Standalone.GetAPISearch P q = Normal (Some results) →
  getAPISearch env q = Normal (Some results) →
  results ≠ [] →
  (∀ it, it ∈ its →
     truthy (data it) = true
     ∧ Standalone.GetAPIDetails P (data it) ≠ Normal EmptyString) →
  Forall (agrees (λ i, match its !! i with
                       | Some it => Standalone.GetAPIDetails P (data it)
                       | None => Throw EmptyString
                       end)) schedule →
  performApiSearch env (Some params) schedule = Some r →
  outcome r = outcome (Standalone.performApiSearch P (Some params)).
Proof.
  intros q its Hq Hloaded Hready Hsearch Hsearch' Hres Hgood Hag Hrun.
  rewrite (standalone_found P params results Hq Hloaded Hsearch Hres).
  destruct (extension_found env params results schedule r
              Hq Hready Hsearch' Hres Hrun) as (t & its' & -> & Hcase).
  fold q in Hcase |- *. fold its in Hcase |- *.
  destruct (strict_ne_false (includeDetails params)); cbn [outcome snd].
  2:{ by destruct Hcase as (_ & _ & ->). }
  do 3 f_equal.
  destruct (enrich_spec _ _ _ _ Hcase) as (? & [= <-] & Hlen & _ & Hd & _).
  apply list_eq. intros i. rewrite list_lookup_fmap.
  destruct (its !! i) as [it|] eqn:Hit; simpl.
  - destruct (Hd i it Hit) as (d & -> & Hdet). f_equal.
    destruct (Hgood it) as [Ht Hne]; [by eapply list_elem_of_lookup_2|].
    assert (Hnone : details it = None).
    { assert (Hall : Forall (λ it, details it = None) its)
        by apply project_details.
      rewrite Forall_forall in Hall. apply Hall.
      by eapply list_elem_of_lookup_2. }
    rewrite Forall_forall in Hag.
    unfold standalone_enriched. rewrite Ht.
    destruct d as [s|]; simpl in Hdet.
    + specialize (Hag _ Hdet). simpl in Hag. rewrite Hit in Hag.
      rewrite Hag. destruct s; [by destruct Hne|done].
    + destruct Hdet as [e He]. specialize (Hag _ He). simpl in Hag.
      rewrite Hit in Hag. rewrite Hag. rewrite <- Hnone.
      by rewrite set_details_same.
  - apply lookup_ge_None in Hit. apply lookup_ge_None. lia.
Qed.

Lemma servers_agree_on_found_results_witness :
  ∃ r,
    performApiSearch (Samples.environment (Samples.matches 3))
      (Some (Samples.params VUndefined VUndefined))
      (fifo_schedule Samples.settlement 3) = Some r
    ∧ outcome r
      = outcome (Standalone.performApiSearch
                   (Samples.provider true (Samples.matches 3))
                   (Some (Samples.params VUndefined VUndefined))).
Proof.
  let r := eval vm_compute in
      (performApiSearch (Samples.environment (Samples.matches 3))
         (Some (Samples.params VUndefined VUndefined))
         (fifo_schedule Samples.settlement 3)) in
  match r with
  | Some ?r0 =>
      exists r0;
      assert (Hrun : performApiSearch
                       (Samples.environment (Samples.matches 3))
                       (Some (Samples.params VUndefined VUndefined))
                       (fifo_schedule Samples.settlement 3) = Some r0)
        by (vm_compute; reflexivity);
      split; [exact Hrun|];
      apply (servers_agree_on_found_results
               (Samples.provider true (Samples.matches 3))
               (Samples.environment (Samples.matches 3))
               (Samples.params VUndefined VUndefined)
               (Samples.matches 3)
               (fifo_schedule Samples.settlement 3) r0);
      [done|done|done|done|done|done| | |exact Hrun]
  end.
  - intros it Hit. vm_compute in Hit.
    repeat (apply elem_of_cons in Hit as [->|Hit]; [by split|]).
    by apply elem_of_nil in Hit.
  - vm_compute. repeat constructor.
Defined.

End Parity.

(** ** Raising the limit *)

Section Limits.

Lemma clamp_mono (a b : Z) : (a ≤ b)%Z → (clamp a ≤ clamp b)%Z.
Proof. unfold clamp. lia. Qed.

(** X12: raising the limit only appends.  For two finite limits
    [l1 <= l2] and otherwise equal arguments, the standalone server finds
    the same [total], and the items returned under [l1] are the first
    [returned] items of those returned under [l2], details included. *)
Theorem larger_limit_extends_the_items (P : Standalone.Provider)
    (qv include : JsValue) (l1 l2 : Q) (results : list RawMatch) :
  let q := validate_query qv in
  let run l := Standalone.performApiSearch P
                 (Some {| query := qv; limit := VNumber (Fin l);
                          includeDetails := include |}) in
  q ≠ EmptyString →
  Standalone.HasTypesFromUnreal P = true →
  Standalone.GetAPISearch P q = Normal (Some results) →
  results ≠ [] →
  (l1 <= l2)%Q →
  ∃ p1 p2,
    outcome (run l1) = Normal (JSON_stringify p1)
    ∧ outcome (run l2) = Normal (JSON_stringify p2)
    ∧ total p1 = total p2
    ∧ returned p1 ≤ returned p2
    ∧ items p1 = take (returned p1) (items p2).
Proof.
  intros q run Hq Hloaded Hsearch Hres Hle. subst run. cbv beta.
  rewrite (standalone_found P
             {| query := qv; limit := VNumber (Fin l1);
                includeDetails := include |} results Hq Hloaded Hsearch Hres).
  rewrite (standalone_found P
             {| query := qv; limit := VNumber (Fin l2);
                includeDetails := include |} results Hq Hloaded Hsearch Hres).
  cbn [query limit includeDetails]. fold q.
  rewrite !validate_limit_finite.
  pose proof (clamp_range (Qfloor l1)) as H1.
  pose proof (clamp_range (Qfloor l2)) as H2.
  pose proof (clamp_mono _ _ (Qfloor_resp_le _ _ Hle)) as Hmono.
  set (L1 := clamp (Qfloor l1)) in *. set (L2 := clamp (Qfloor l2)) in *.
  unfold base_payload. rewrite !slice0_int by lia.
  assert (Hprefix : ∀ (A : Type) (X : list A),
            length X = length results →
            take (Z.to_nat L1) X
            = take (length (take (Z.to_nat L1) results))
                (take (Z.to_nat L2) X)).
  { intros A X HX. rewrite length_take, take_take.
    destruct (decide (Z.to_nat L1 ≤ length results)) as [Hin|Hout].
    - f_equal. lia.
    - rewrite !take_ge; [done|lia..]. }
  destruct (strict_ne_false include); eexists _, _;
    (split; [reflexivity|]); (split; [reflexivity|]);
    cbn [with_items total returned items]; (split; [done|]);
    (split; [rewrite !length_take; lia|]).
  - rewrite !fmap_take. apply Hprefix. by rewrite !length_fmap.
  - rewrite !fmap_take. apply Hprefix. by rewrite !length_fmap.
Qed.

Lemma larger_limit_extends_the_items_witness :
  ∃ p1 p2,
    outcome (Standalone.performApiSearch
               (Samples.provider true (Samples.matches 5))
               (Some {| query := VString "GetActor";
                        limit := VNumber (Fin 2);
                        includeDetails := VUndefined |}))
    = Normal (JSON_stringify p1)
    ∧ outcome (Standalone.performApiSearch
                 (Samples.provider true (Samples.matches 5))
                 (Some {| query := VString "GetActor";
                          limit := VNumber (Fin (7 # 2));
                          includeDetails := VUndefined |}))
      = Normal (JSON_stringify p2)
    ∧ items p1 = take (returned p1) (items p2).
Proof.
  destruct (larger_limit_extends_the_items
              (Samples.provider true (Samples.matches 5))
              (VString "GetActor") VUndefined 2 (7 # 2)
              (Samples.matches 5))
    as (p1 & p2 & H1 & H2 & _ & _ & H3); [done..|].
  by exists p1, p2.
Defined.

End Limits.

(** ** Instances *)

Section Instances.

Lemma text_identifies_cause_witness :
  validate_query (query (Samples.params VUndefined VUndefined))
  ≠ EmptyString
  ∧ Standalone.HasTypesFromUnreal Samples.broken_provider = true
  ∧ searches (trace (Standalone.performApiSearch Samples.broken_provider
                       (Some (Samples.params VUndefined VUndefined))))
    = [validate_query (query (Samples.params VUndefined VUndefined))]
  ∧ ∃ error,
      ConsoleError "angelscript_searchApi tool failed:" error
      ∈ trace (Standalone.performApiSearch Samples.broken_provider
                 (Some (Samples.params VUndefined VUndefined))).
Proof.
  destruct text_identifies_cause as [Hs _].
  destruct (Hs Samples.broken_provider
              (Samples.params VUndefined VUndefined)) as (_ & _ & H & _).
  exact (H eq_refl).
Defined.

Lemma payload_and_calls_are_bounded_witness :
  length (fetches (trace (Standalone.performApiSearch
                            (Samples.provider true (Samples.matches 3))
                            (Some (Samples.params
                                     (VNumber (Fin (inject_Z 500000)))
                                     VUndefined))))) ≤ 1000
  ∧ ∀ p, outcome (Standalone.performApiSearch
                    (Samples.provider true (Samples.matches 3))
                    (Some (Samples.params (VNumber NaN) VUndefined)))
         = Normal (JSON_stringify p) →
         returned p ≤ Nat.min (total p) 1000.
Proof.
  destruct payload_and_calls_are_bounded as [Hs _].
  split.
  - by destruct (Hs (Samples.provider true (Samples.matches 3))
                   (Samples.params (VNumber (Fin (inject_Z 500000)))
                      VUndefined)) as (_ & H & _).
  - intros p Hp.
    destruct (Hs (Samples.provider true (Samples.matches 3))
                (Samples.params (VNumber NaN) VUndefined)) as (_ & _ & H).
    by destruct (H p Hp) as (_ & _ & ? & _).
Defined.

Lemma provider_query_is_trimmed_witness :
  ("GetActor"%string
   = validate_query (query (Samples.params VUndefined VUndefined)))
  ∧ "GetActor"%string ≠ EmptyString
  ∧ trimmed "GetActor".
Proof.
  destruct provider_query_is_trimmed as [Hs _].
  apply (Hs (Samples.provider true (Samples.matches 3))
            (Samples.params VUndefined VUndefined)).
  vm_compute. by left.
Defined.

End Instances.

(** ** The failures logged *)

Section Logging.
Import Extension SchedInv.

Lemma failures_app (t1 t2 : list Effect) :
  failures (t1 ++ t2) = failures t1 ++ failures t2.
Proof. apply omap_app. Qed.

Lemma startNext_loop_failures (fuel : nat) (its : list SearchResultItem)
    (st : Sched) :
  failures (effects (startNext_loop fuel its st)) = failures (effects st).
Proof.
  revert st. induction fuel as [|fuel IH]; intros st; [done|].
  cbn [startNext_loop]. destruct (can_start its st); [|done].
  destruct (its !! nextIndex st) as [item|]; [|done].
  rewrite IH. unfold dispatch. cbn [effects].
  by rewrite failures_app, app_nil_r.
Qed.

Lemma callback_failures (its : list SearchResultItem) (st st' : Sched)
    (cb : Callback) :
  callback its st cb = Some st' →
  failures (effects st')
  = failures (effects st) ++ option_list (logged its cb).
Proof.
  destruct cb as [i details|i error|i]; simpl.
  - case_bool_decide; [|done]. intros [= <-]. simpl. by rewrite !app_nil_r.
  - case_bool_decide; [|done]. destruct (its !! i); [|done].
    intros [= <-]. simpl. by rewrite failures_app.
  - case_bool_decide; [|done]. intros [= <-]. rewrite app_nil_r.
    unfold finally. case_match; [done|]. unfold startNext.
    by rewrite startNext_loop_failures.
Qed.

Lemma run_failures (its : list SearchResultItem) (schedule : list Callback)
    (st st' : Sched) :
  run its st schedule = Some st' →
  failures (effects st')
  = failures (effects st) ++ omap (logged its) schedule.
Proof.
  revert st. induction schedule as [|cb schedule IH]; intros st; simpl.
  - intros [= <-]. by rewrite app_nil_r.
  - destruct (callback its st cb) as [st1|] eqn:Hcb; [|done]. simpl.
    intros Hrun. rewrite (IH _ Hrun), (callback_failures _ _ _ _ Hcb).
    rewrite <- (assoc_L (++)). f_equal. by destruct (logged its cb).
Qed.

Lemma enrich_failures (its : list SearchResultItem)
    (schedule : list Callback) (t : list Effect)
    (res : Completion (list SearchResultItem)) :
  enrich its schedule = Some (t, res) →
  failures t = omap (logged its) schedule.
Proof.
  unfold enrich. case_bool_decide.
  - destruct (run its (startNext its initial) schedule) as [st|] eqn:Hrun;
      [|done].
    simpl. destruct (resolved st); [|done]. intros [= <- _].
    rewrite (run_failures _ _ _ _ Hrun). unfold startNext.
    by rewrite startNext_loop_failures.
  - by intros [-> [= -> _]]%quiescent_Some.
Qed.

Lemma standalone_item_failures (P : Standalone.Provider)
    (its : list SearchResultItem) :
  failures (its ≫= standalone_item_trace P) = omap (standalone_logged P) its.
Proof.
  induction its as [|it its IH]; [done|].
  rewrite bind_cons, failures_app, IH. cbn [omap list_omap].
  unfold standalone_item_trace, standalone_logged.
  destruct (truthy (data it)); [|done].
  by destruct (Standalone.GetAPIDetails P (data it)).
Qed.

(** X13: the failures logged are exact.  When a non-empty result list is
    enriched, the extension server logs one failure per rejected request,
    in the order of the rejections and under the label of the item of that
    request, and nothing else; an item of the payload is without [details]
    exactly when its own request was rejected.  The standalone server logs
    one failure per item whose lookup threw, in item order, and nothing
    else. *)
Theorem failure_log_is_exact :
  (∀ env params results schedule r,
     let q := validate_query (query params) in
     let payload := base_payload q results (validate_limit (limit params)) in
     q ≠ EmptyString →
     clientReady env = Normal tt →
     getAPISearch env q = Normal (Some results) →
     results ≠ [] →
     strict_ne_false (includeDetails params) = true →
     performApiSearch env (Some params) schedule = Some r →
     failures (trace r) = omap (logged (items payload)) schedule
     ∧ ∃ its',
         outcome r = Normal (JSON_stringify (with_items payload its'))
         ∧ ∀ i it', its' !! i = Some it' →
             (details it' = None ↔ ∃ error, Catch i error ∈ schedule))
  ∧ (∀ P params results,
       let q := validate_query (query params) in
       let payload := base_payload q results (validate_limit (limit params)) in
       q ≠ EmptyString →
       Standalone.HasTypesFromUnreal P = true →
       Standalone.GetAPISearch P q = Normal (Some results) →
       results ≠ [] →
       strict_ne_false (includeDetails params) = true →
       failures (trace (Standalone.performApiSearch P (Some params)))
       = omap (standalone_logged P) (items payload)).
Proof.
  split.
  - intros env params results schedule r q payload Hq Hready Hsearch Hres
      Hinc Hrun.
    destruct (extension_found env params results schedule r
                Hq Hready Hsearch Hres Hrun) as (t & its' & -> & Hen).
    rewrite Hinc in Hen. fold q payload in Hen |- *.
    split.
    + unfold trace. cbn [fst].
      change (failures (CallSearch q :: t)) with (failures t).
      by eapply enrich_failures.
    + exists its'. split; [done|].
      destruct (enrich_spec _ _ _ _ Hen)
        as (? & [= <-] & Hlen & _ & Hd & Hfun & _).
      intros i it' Hit'.
      destruct (lookup_lt_is_Some_2 (items payload) i) as [it Hit].
      { rewrite <- Hlen. by eapply lookup_lt_Some. }
      destruct (Hd i it Hit) as (d & Hit2 & Hdet).
      rewrite Hit2 in Hit'. injection Hit' as <-. simpl. split.
      * intros ->. exact Hdet.
      * intros Hcatch. destruct (Hfun i None Hcatch) as (it2 & Hit3 & Hit4).
        rewrite Hit2 in Hit4. rewrite Hit in Hit3.
        injection Hit3 as <-. by injection Hit4 as ->.
  - intros P params results q payload Hq Hloaded Hsearch Hres Hinc.
    rewrite (standalone_found P params results Hq Hloaded Hsearch Hres).
    rewrite Hinc. fold q payload. unfold trace. cbn [fst].
    change (failures (CallHasTypes :: CallSearch q
                        :: (items payload ≫= standalone_item_trace P)))
      with (failures (items payload ≫= standalone_item_trace P)).
    apply standalone_item_failures.
Qed.

Lemma failure_log_is_exact_witness :
  failures (trace (Standalone.performApiSearch
                     (Samples.provider true (Samples.matches 3))
                     (Some (Samples.params VUndefined VUndefined))))
  = [("Failed to fetch details for GetActor:"%string, "timeout"%string)].
Proof.
  destruct failure_log_is_exact as [_ Hs].
  rewrite (Hs (Samples.provider true (Samples.matches 3))
              (Samples.params VUndefined VUndefined)
              (Samples.matches 3)); done.
Defined.

End Logging.
